(** * playground-elements: the compiler worker, the tab bar and the file editor

    A shallow embedding of three source files of the repository:
    - the TypeScript worker ([compileProject], its language-service host,
      the bare-specifier transform and the diagnostic conversion);
    - [vanilla-tab.ts] ([VanillaTab] and [VanillaTabBar]);
    - the file editor ([PlaygroundFileEditor] and [mimeTypeToTypeEnum]).

    JavaScript [Map]s are [gmap]s, arrays are lists, DOM objects live in a
    store indexed by reference, exceptions are an explicit result type, and
    the one [await] of the worker splits [compileProject] into the part that
    runs before the promise is returned and the part that runs when the
    awaited promise settles. *)

From Stdlib Require Import ZArith String Ascii List Bool Lia.
From stdpp Require Import base option list strings gmap fin_maps functions.

Local Open Scope string_scope.

(** ** JavaScript string primitives *)

Module Js.

(** [s.endsWith(suffix)] *)
Definition endsWith (s suffix : string) : bool :=
  let n := String.length s in
  let m := String.length suffix in
  (m <=? n)%nat && String.eqb (substring (n - m) m s) suffix.

(** [s.indexOf(pat)]: [None] stands for the result [-1]. *)
Definition indexOf (s pat : string) : option nat := index 0 pat s.

(** [s.substring(0, e)] for [0 <= e <= s.length]. *)
Definition substring0 (s : string) (e : nat) : string := substring 0 e s.

(** Results of a call that may throw. *)
Inductive result (A : Type) : Type :=
| Ok (a : A)
| Throw (message : string).
Arguments Ok {A} a.
Arguments Throw {A} message.

(** What follows a call: nothing when it threw. *)
Definition bind {A B : Type} (m : result A) (k : A → result B) : result B :=
  match m with
  | Ok a => k a
  | Throw message => Throw message
  end.

(** A call of which is known whether it throws, and what it returns when it
    does not. *)
Definition orThrow {A : Type} (thrown : option string) (value : A) : result A :=
  match thrown with
  | Some message => Throw message
  | None => Ok value
  end.

(** [l.map(f)] for an [f] that may throw: the first throw ends the loop. *)
Fixpoint mapM {A B : Type} (f : A → result B) (l : list A) : result (list B) :=
  match l with
  | [] => Ok []
  | a :: l =>
    bind (f a) (λ b, bind (mapM f l) (λ bs, Ok (b :: bs)))
  end.

(** [for (const b of l) { ... }] over a state [a], for a body that may
    throw: the first throw ends the loop. *)
Fixpoint foldlM {A B : Type} (f : A → B → result A) (a : A) (l : list B)
  : result A :=
  match l with
  | [] => Ok a
  | b :: l => bind (f a b) (λ a, foldlM f a l)
  end.

End Js.

(** [x ←! m; k]: run [m]; if it throws, so does the whole, else go on with
    [k] on what it returned. *)
Notation "x ←! m ; k" := (Js.bind m (λ x, k))
  (at level 20, m at level 100, k at level 200, only parsing).

(** The shape of a project file, shared by the worker API ([SampleFile]) and
    the project model. *)
Record SampleFile := {
  name : string;
  content : string;
  contentType : option string;
}.

(** ** Language Server Protocol diagnostics (the fields the worker fills) *)

Module Lsp.

Record Position := { line : Z; character : Z }.

Record Range := { start : Position; end_ : Position }.

(** [severity] is read out of a table by key: [None] is [undefined]. *)
Record Diagnostic := {
  code : Z;
  source : string;
  message : string;
  severity : option Z;
  range : Range;
}.

End Lsp.

(** ** The TypeScript worker *)

Module Worker.

(** *** What the worker is given *)

(** The parts of the TypeScript library the worker calls on values it never
    builds itself. Its functions are taken to return normally. *)
Class TypeScript := {
  SourceFile : Type;
  Program : Type;
  DiagnosticMessageText : Type;
  (** [ts.flattenDiagnosticMessageText(messageText, newLine)] *)
  flattenDiagnosticMessageText : DiagnosticMessageText → string → string;
  (** [sourceFile.getLineAndCharacterOfPosition(position)] *)
  getLineAndCharacterOfPosition : SourceFile → Z → Lsp.Position;
}.

(** The worker global: [self.origin], and [new URL(relative, base)]:
    [URL_throws] is the message of the [TypeError] when the constructor
    throws and [None] when it returns, [URL_href] the [href] of what it
    returns. *)
Class WorkerGlobal := {
  origin : string;
  URL_href : string → string → string;
  URL_throws : string → string → option string;
}.

(** The result of [ModuleResolver.resolve]. *)
Record Resolution := { type : string; url : string }.

(** The interface of [./module-resolver.js]: a resolver is built from an
    import map and asked to [resolve] a specifier against a referrer. *)
Class ModuleResolution := {
  ModuleImportMap : Type;
  resolve : ModuleImportMap → string → string → Resolution;
}.

(** *** Diagnostics *)

(** [ts.DiagnosticCategory], with the numbers of the enumeration. *)
Inductive DiagnosticCategory := Warning | Error | Suggestion | Message.

Definition categoryNumber (c : DiagnosticCategory) : Z :=
  match c with
  | Warning => 0
  | Error => 1
  | Suggestion => 2
  | Message => 3
  end.

(** [ts.Diagnostic]; an absent optional field is [None]. *)
Record TsDiagnostic `{TypeScript} := {
  category : DiagnosticCategory;
  code : Z;
  file : option SourceFile;
  start : option Z;
  length : option Z;
  messageText : DiagnosticMessageText;
  source : option string;
}.

(** The object literal [diagnosticCategoryMapping], keyed by the numbers of
    the categories. *)
Definition diagnosticCategoryMapping : gmap Z Z :=
  <[categoryNumber Error := 1%Z]>
    (<[categoryNumber Warning := 2%Z]>
      (<[categoryNumber Message := 3%Z]>
        (<[categoryNumber Suggestion := 4%Z]> ∅))).

Definition origin_position : Lsp.Position :=
  {| Lsp.line := 0; Lsp.character := 0 |}.

Definition makeLspDiagnostic `{TypeScript} (tsDiagnostic : TsDiagnostic)
  : Lsp.Diagnostic :=
  {| Lsp.code := code tsDiagnostic;
     Lsp.source := default "typescript" (source tsDiagnostic);
     Lsp.message :=
       flattenDiagnosticMessageText (messageText tsDiagnostic)
         (String "010"%char EmptyString);
     Lsp.severity :=
       diagnosticCategoryMapping !! categoryNumber (category tsDiagnostic);
     Lsp.range :=
       {| Lsp.start :=
            match file tsDiagnostic, start tsDiagnostic with
            | Some f, Some s => getLineAndCharacterOfPosition f s
            | _, _ => origin_position
            end;
          Lsp.end_ :=
            match file tsDiagnostic, start tsDiagnostic,
                  length tsDiagnostic with
            | Some f, Some s, Some len =>
              getLineAndCharacterOfPosition f (s + len)
            | _, _, _ => origin_position
            end |} |}.

Definition isTsOrJsFile (file : string) : bool :=
  Js.endsWith file ".ts" || Js.endsWith file ".js".

(** *** The in-memory file system *)

Inductive FileRecord :=
| Pending
| Resolved (originalUrl : option string) (content : string)
| Redirected (redirectedUrl : string).

Record CompilerOptions := {
  target : string;
  module : string;
  experimentalDecorators : bool;
  skipDefaultLibCheck : bool;
  skipLibCheck : bool;
  moduleResolution : string;
  allowJs : bool;
  suppressOutputPathCheck : bool;
  lib : list string;
}.

Definition compilerOptions : CompilerOptions :=
  {| target := "ES2017";
     module := "ESNext";
     experimentalDecorators := true;
     skipDefaultLibCheck := true;
     skipLibCheck := true;
     moduleResolution := "NodeJs";
     allowJs := true;
     suppressOutputPathCheck := true;
     lib := ["dom"; "esnext"] |}.

(** [ts.IScriptSnapshot], as [ts.ScriptSnapshot.fromString] makes it. *)
Inductive IScriptSnapshot := ScriptSnapshot_fromString (text : string).

Definition getText (s : IScriptSnapshot) : string :=
  match s with ScriptSnapshot_fromString text => text end.

(** [WorkerLanguageServiceHost]. The [files] field is the very [Map] that
    [compileProject] keeps writing to: whoever reads through the host sees
    the map as it is at the time of the read. *)
Record WorkerLanguageServiceHost := {
  host_compilerOptions : CompilerOptions;
  packageRoot : string;
  files : gmap string FileRecord;
}.

Section Host.
Variable this : WorkerLanguageServiceHost.

Definition getCompilationSettings : CompilerOptions :=
  host_compilerOptions this.

(** The names come out of the [Map] in insertion order, which the finite
    map does not record: they are given as a set. *)
Definition getScriptFileNames : gset string :=
  filter (λ name, isTsOrJsFile name = true) (dom (files this)).

Definition getScriptVersion (_fileName : string) : string := "-1".

Definition fileExists (fileName : string) : bool :=
  match files this !! fileName with
  | Some (Resolved _ _) => true
  | _ => false
  end.

Definition readFile (fileName : string) : option string :=
  match files this !! fileName with
  | Some (Resolved _ content) => Some content
  | _ => None
  end.

Definition getScriptSnapshot (fileName : string) : option IScriptSnapshot :=
  if negb (fileExists fileName) then None
  else ScriptSnapshot_fromString <$> readFile fileName.

Definition getCurrentDirectory : string := packageRoot this.

Definition getDefaultLibFileName : string := "__lib.d.ts".
End Host.

(** *** The syntax tree, as far as the transform looks at it *)

(** A [ts.Node] is an import declaration or something else with children.
    What hangs below an import declaration (its clause, and the literal of
    the specifier, of which the transform reads the [text]) holds no import
    declaration; the clause is kept as data. *)
#[warnings="-register-all"]
Inductive Node :=
| ImportDeclaration (importClause : option string) (moduleSpecifier : string)
| OtherNode (kind : nat) (children : list Node).

Section Transform.
Context `{WorkerGlobal} `{ModuleResolution}.
Variable moduleResolver : ModuleImportMap.

(** The visitor made by [makeBareSpecifierTransformVisitor]. On any node
    but a rewritten import, [ts.visitEachChild] rebuilds the node from
    its visited children. *)
Fixpoint visitor (node : Node) : Node :=
  match node with
  | ImportDeclaration importClause specifier =>
    let r := resolve moduleResolver specifier origin in
    if String.eqb (type r) "bare"
    then ImportDeclaration importClause (url r)
    else ImportDeclaration importClause specifier
  | OtherNode kind children => OtherNode kind (List.map visitor children)
  end.

(** The specifier the specification expects in the output. *)
Definition rewrittenSpecifier (specifier : string) : string :=
  let r := resolve moduleResolver specifier origin in
  if String.eqb (type r) "bare" then url r else specifier.
End Transform.

(** The specifiers of the import declarations of a tree, in source order. *)
Fixpoint importSpecifiers (node : Node) : list string :=
  match node with
  | ImportDeclaration _ specifier => [specifier]
  | OtherNode _ children => List.concat (List.map importSpecifiers children)
  end.

(** The tree [emit] prints for a source file: the compiler's own
    transformations come first, the [after] transformers, of which the
    visitor is the only one, work on their result. *)
Definition emittedTree `{WorkerGlobal} `{ModuleResolution}
    (compilerTransform : Node → Node) (moduleResolver : ModuleImportMap)
    (sourceFile : Node) : Node :=
  visitor moduleResolver (compilerTransform sourceFile).

(** What the specification says of the emitted output: it has the import
    declarations of the compiled file, each with its specifier rewritten
    if bare and unchanged if not. *)
Definition emitAsSpecified `{WorkerGlobal} `{ModuleResolution}
    (compilerTransform : Node → Node) (moduleResolver : ModuleImportMap)
    (sourceFile : Node) : Prop :=
  importSpecifiers (emittedTree compilerTransform moduleResolver sourceFile) =
  rewrittenSpecifier moduleResolver <$> importSpecifiers sourceFile.

(** The tree with its specifiers blanked: everything the transform must
    leave alone. *)
Fixpoint withoutSpecifiers (node : Node) : Node :=
  match node with
  | ImportDeclaration importClause _ => ImportDeclaration importClause ""
  | OtherNode kind children => OtherNode kind (List.map withoutSpecifiers children)
  end.

(** *** The language service *)

(** What [ts.createLanguageService(host, registry)] gives. The service holds
    the host by reference and goes back to it on every query, so each
    function takes the host as it stands at the call. [emit] gives the
    calls of its [writeFile] argument, in order, as pairs of a file name and
    its text; with no source file it emits the whole program. A call of the
    service may throw: the fields ending in [_throws] give the message of
    the error thrown, [None] when the call returns, and the fields without
    it what the call returns then. *)
Class LanguageService `{TypeScript} := {
  getProgram : WorkerLanguageServiceHost → option Program;
  getSourceFile : Program → string → option SourceFile;
  emit : Program → option SourceFile → (Node → Node) → list (string * string);
  getSyntacticDiagnostics :
    WorkerLanguageServiceHost → string → list TsDiagnostic;
  getSemanticDiagnostics :
    WorkerLanguageServiceHost → string → list TsDiagnostic;
  getProgram_throws : WorkerLanguageServiceHost → option string;
  emit_throws :
    Program → option SourceFile → (Node → Node) → option string;
  getSyntacticDiagnostics_throws :
    WorkerLanguageServiceHost → string → option string;
  getSemanticDiagnostics_throws :
    WorkerLanguageServiceHost → string → option string;
}.

(** *** compileProject *)

(** The interface of [./types-fetcher.js]: the worker tells the fetcher what
    to fetch and later awaits [getFiles()]. The fetcher is the list of what
    it was told, in order. *)
Inductive TypingsRequest :=
| BareModuleTypings (sourceText : string)
| LibTypings (lib : string).

Record CompileResult := {
  result_files : gmap string string;
  diagnostics : gmap string (list Lsp.Diagnostic);
}.

(** The async arrow function of [compileProject], parked at its [await]:
    the variables it closes over. *)
Record SlowPass := {
  typesFetcher : list TypingsRequest;
  loadedFiles : gmap string FileRecord;
  inputFiles : list (SampleFile * string);
}.

(** How the promise of [typesFetcher.getFiles()] ends up. *)
Inductive PromiseState (A : Type) :=
| StillPending
| Fulfilled (value : A)
| Rejected.
Arguments StillPending {A}.
Arguments Fulfilled {A} value.
Arguments Rejected {A}.

(** What can be seen of one call from outside: how the returned promise
    settled, the arguments of the calls of [slowDiagnosticsCallback] in
    order, and the file map at the end. *)
Record Observation := {
  returned : Js.result CompileResult;
  callbackCalls : list (gmap string (list Lsp.Diagnostic));
  finalFiles : gmap string FileRecord;
}.

Section CompileProject.
Context `{LanguageService} `{WorkerGlobal} `{ModuleResolution}.

Definition hostOf (loadedFiles : gmap string FileRecord)
  : WorkerLanguageServiceHost :=
  {| host_compilerOptions := compilerOptions;
     packageRoot := origin;
     files := loadedFiles |}.

(** What [files.filter(...).map(...)] gives when no [new URL] throws. *)
Definition makeInputFiles (files : list SampleFile)
  : list (SampleFile * string) :=
  List.map (λ file, (file, URL_href (name file) origin))
    (List.filter (λ file, isTsOrJsFile (name file)) files).

(** The first loop over [inputFiles]. *)
Definition loadInputFiles (inputFiles : list (SampleFile * string))
  : gmap string FileRecord * list TypingsRequest :=
  foldl (λ '(loadedFiles, typesFetcher) '(file, url),
           (<[url := Resolved None (content file)]> loadedFiles,
            (typesFetcher ++ [BareModuleTypings (content file)])%list))
        (∅, []) inputFiles.

(** [for (const lib of compilerOptions.lib) typesFetcher.addLibTypings(lib)] *)
Definition addLibs (typesFetcher : list TypingsRequest)
  : list TypingsRequest :=
  foldl (λ typesFetcher lib, (typesFetcher ++ [LibTypings lib])%list)
        typesFetcher (lib compilerOptions).

(** The [writeFile] callback, over the calls one [emit] makes. *)
Definition writeFiles (emittedFiles : gmap string string)
    (writes : list (string * string)) : gmap string string :=
  foldl (λ emittedFiles '(fileName, data), <[fileName := data]> emittedFiles)
        emittedFiles writes.

(** What the second loop over [inputFiles], the fast pass, computes when
    no call of the service throws. *)
Definition fastPass (importMap : ModuleImportMap)
    (loadedFiles : gmap string FileRecord) (program : Program)
    (inputFiles : list (SampleFile * string))
  : gmap string string * gmap string (list Lsp.Diagnostic) :=
  foldl (λ '(emittedFiles, fastDiagnostics) '(file, url),
           let fastDiagnostics :=
             <[name file :=
                 makeLspDiagnostic <$>
                   getSyntacticDiagnostics (hostOf loadedFiles) url]>
               fastDiagnostics in
           let sourceFile := getSourceFile program url in
           (writeFiles emittedFiles
              (emit program sourceFile (visitor importMap)),
            fastDiagnostics))
        (∅, ∅) inputFiles.

(** [new URL(relative, base).href] *)
Definition newURL (relative base : string) : Js.result string :=
  Js.orThrow (URL_throws relative base) (URL_href relative base).

(** [files.filter(...).map(...)]; the callback of [map] calls [new URL]. *)
Definition inputFilesOf (files : list SampleFile)
  : Js.result (list (SampleFile * string)) :=
  Js.mapM (λ file, url ←! newURL (name file) origin; Js.Ok (file, url))
    (List.filter (λ file, isTsOrJsFile (name file)) files).

(** [languageService.getProgram()] and the check that follows it. *)
Definition programOf (host : WorkerLanguageServiceHost) : Js.result Program :=
  program ←! Js.orThrow (getProgram_throws host) (getProgram host);
  match program with
  | Some program => Js.Ok program
  | None => Js.Throw "Unexpected error: program was undefined"
  end.

(** The body of the second loop over [inputFiles]. *)
Definition fastStep (importMap : ModuleImportMap)
    (loadedFiles : gmap string FileRecord) (program : Program)
    (maps : gmap string string * gmap string (list Lsp.Diagnostic))
    (input : SampleFile * string)
  : Js.result (gmap string string * gmap string (list Lsp.Diagnostic)) :=
  let '(emittedFiles, fastDiagnostics) := maps in
  let '(file, url) := input in
  tsDiagnostics ←!
    Js.orThrow (getSyntacticDiagnostics_throws (hostOf loadedFiles) url)
               (getSyntacticDiagnostics (hostOf loadedFiles) url);
  let fastDiagnostics :=
    <[name file := makeLspDiagnostic <$> tsDiagnostics]> fastDiagnostics in
  let sourceFile := getSourceFile program url in
  writes ←!
    Js.orThrow (emit_throws program sourceFile (visitor importMap))
               (emit program sourceFile (visitor importMap));
  Js.Ok (writeFiles emittedFiles writes, fastDiagnostics).

(** [compileProject] up to its [return]; a throw on the way rejects the
    promise it returns. What may throw is [new URL] and the calls of the
    language service; the constructors, the two [add] methods of the
    fetcher and [getSourceFile] are taken to return. The async arrow
    function is called last: it runs
    up to [await typesFetcher.getFiles()] and hands control back, so what
    is left of it is returned next to the result. Its continuation cannot
    run before the caller's job is over, even if the awaited promise is
    already fulfilled. *)
Definition compileProject (files : list SampleFile)
    (importMap : ModuleImportMap)
  : Js.result (CompileResult * SlowPass) :=
  inputFiles ←! inputFilesOf files;
  let '(loadedFiles, typesFetcher) := loadInputFiles inputFiles in
  let typesFetcher := addLibs typesFetcher in
  program ←! programOf (hostOf loadedFiles);
  maps ←!
    Js.foldlM (fastStep importMap loadedFiles program) (∅, ∅) inputFiles;
  let '(emittedFiles, fastDiagnostics) := maps in
  Js.Ok ({| result_files := emittedFiles;
            diagnostics := fastDiagnostics |},
         {| typesFetcher := typesFetcher;
            loadedFiles := loadedFiles;
            inputFiles := inputFiles |}).




(** The loop over the fetched typings: the file map as the loop leaves it,
    and whether it was left by a throw of [new URL]. *)
Fixpoint addFetchedFilesUntilThrow (loadedFiles : gmap string FileRecord)
    (fetched : list (string * string))
  : gmap string FileRecord * Js.result unit :=
  match fetched with
  | [] => (loadedFiles, Js.Ok tt)
  | (specifier, content) :: fetched =>
    match newURL ("node_modules/" +:+ specifier) origin with
    | Js.Throw message => (loadedFiles, Js.Throw message)
    | Js.Ok url =>
      addFetchedFilesUntilThrow
        (<[url := Resolved None content]> loadedFiles) fetched
    end
  end.

(** The body of the third loop over [inputFiles]. *)
Definition slowStep (loadedFiles : gmap string FileRecord)
    (slowDiagnostics : gmap string (list Lsp.Diagnostic))
    (input : SampleFile * string)
  : Js.result (gmap string (list Lsp.Diagnostic)) :=
  let '(file, url) := input in
  tsDiagnostics ←!
    Js.orThrow (getSemanticDiagnostics_throws (hostOf loadedFiles) url)
               (getSemanticDiagnostics (hostOf loadedFiles) url);
  Js.Ok (<[name file := makeLspDiagnostic <$> tsDiagnostics]> slowDiagnostics).

(** The rest of the async arrow function, run when [getFiles()] is
    fulfilled with [fetched]: the file map as it leaves it, and the
    argument with which it calls [slowDiagnosticsCallback] at its end, or
    the error that ended it before. *)
Definition slowPass (parked : SlowPass) (fetched : list (string * string))
  : gmap string FileRecord * Js.result (gmap string (list Lsp.Diagnostic)) :=
  let '(loadedFiles, added) :=
    addFetchedFilesUntilThrow (loadedFiles parked) fetched in
  (loadedFiles,
   _ ←! added; Js.foldlM (slowStep loadedFiles) ∅ (inputFiles parked)).

(** One call of [compileProject] together with the fate of the promise of
    [getFiles()]. A throw before the arrow function is reached leaves
    nothing parked; a rejected or pending [getFiles()] never resumes it,
    and a throw in it ends it before the callback is called. *)
Definition observe (files : list SampleFile) (importMap : ModuleImportMap)
    (getFiles : PromiseState (list (string * string))) : Observation :=
  match compileProject files importMap with
  | Js.Throw e =>
    {| returned := Js.Throw e;
       callbackCalls := [];
       finalFiles :=
         match inputFilesOf files with
         | Js.Ok inputFiles => (loadInputFiles inputFiles).1
         | Js.Throw _ => ∅
         end |}
  | Js.Ok (result, parked) =>
    match getFiles with
    | Fulfilled fetched =>
      let '(loadedFiles, outcome) := slowPass parked fetched in
      {| returned := Js.Ok result;
         callbackCalls :=
           match outcome with
           | Js.Ok slowDiagnostics => [slowDiagnostics]
           | Js.Throw _ => []
           end;
         finalFiles := loadedFiles |}
    | _ =>
      {| returned := Js.Ok result;
         callbackCalls := [];
         finalFiles := loadedFiles parked |}
    end
  end.

(** The diagnostics of a file's own text: what the service reports at the
    file's URL when the file map holds this file's content there. *)
Definition ownSyntacticDiagnostics (loadedFiles : gmap string FileRecord)
    (file : SampleFile) : list Lsp.Diagnostic :=
  let url := URL_href (name file) origin in
  makeLspDiagnostic <$>
    getSyntacticDiagnostics
      (hostOf (<[url := Resolved None (content file)]> loadedFiles)) url.

(** What the specification says of the diagnostics of the fast pass: every
    input file ending in [.ts] or [.js] has, under its name, its own
    syntactic diagnostics. *)
Definition fastPassAsSpecified (files : list SampleFile)
    (importMap : ModuleImportMap) : Prop :=
  ∀ result parked,
    compileProject files importMap = Js.Ok (result, parked) →
    ∀ file, file ∈ files → isTsOrJsFile (name file) = true →
      diagnostics result !! name file =
        Some (ownSyntacticDiagnostics (loadedFiles parked) file).

(** *** Names for what the loops write

    Each loop writes one entry per element it visits; these are the entries. *)

Definition inputEntry (input : SampleFile * string) : string * FileRecord :=
  (input.2, Resolved None (content input.1)).


Definition fastEntry (loaded : gmap string FileRecord)
    (input : SampleFile * string) : string * list Lsp.Diagnostic :=
  (name input.1,
   makeLspDiagnostic <$> getSyntacticDiagnostics (hostOf loaded) input.2).


(** The [writeFile] calls of the fast pass, in order. *)
Definition emitCalls (importMap : ModuleImportMap) (program : Program)
    (inputs : list (SampleFile * string)) : list (string * string) :=
  List.concat
    (List.map (λ input : SampleFile * string,
                 emit program (getSourceFile program input.2)
                      (visitor importMap)) inputs).

End CompileProject.

End Worker.

(** ** The tab bar *)

Module TabBar.

(** A DOM element is known by its reference; two references are the same
    element exactly when they are equal. *)
Definition ref := nat.

(** The fields of a [VanillaTab] the tab bar reads and writes. [idx] is the
    0-indexed position of the tab within its bar. *)
Record VanillaTab := {
  active : bool;
  idx : nat;
}.

Definition with_active (b : bool) (tab : VanillaTab) : VanillaTab :=
  {| active := b; idx := idx tab |}.

Definition with_idx (i : nat) (tab : VanillaTab) : VanillaTab :=
  {| active := active tab; idx := i |}.

(** The detail of the [tabchange] event the bar dispatches itself. *)
Record TabChange := {
  detail_tab : option ref;
  detail_previous : option ref;
}.

(** A [VanillaTabBar] and the part of the document it acts on: the tab
    elements, the element that has the focus, and the events the bar has
    dispatched. *)
Record State := {
  tabs : ref → VanillaTab;
  _tabs : list ref;
  _active : option ref;
  focused : option ref;
  dispatched : list TabChange;
}.

(** [tab.active = b]. [active] is a reactive property: the write also
    schedules the tab's [update], which runs later and, when the tab has
    become active, dispatches the [tabchange] that [_onTabchange] handles. *)
Definition setTabActive (tab : ref) (b : bool) (s : State) : State :=
  {| tabs := alter (with_active b) tab (tabs s);
     _tabs := _tabs s;
     _active := _active s;
     focused := focused s;
     dispatched := dispatched s |}.

Definition set_bar_active (tab : option ref) (s : State) : State :=
  {| tabs := tabs s;
     _tabs := _tabs s;
     _active := tab;
     focused := focused s;
     dispatched := dispatched s |}.

(** [tab.focus()] *)
Definition focus (tab : ref) (s : State) : State :=
  {| tabs := tabs s;
     _tabs := _tabs s;
     _active := _active s;
     focused := Some tab;
     dispatched := dispatched s |}.

(** [get active()] *)
Definition get_active (s : State) : option ref := _active s.

(** [set active(tab)] *)
Definition set_active (tab : option ref) (s : State) : State :=
  if decide (_active s = tab) then s
  else
    let s := match _active s with
             | Some previous => setTabActive previous false s
             | None => s
             end in
    let s := match tab with
             | Some tab => setTabActive tab true s
             | None => s
             end in
    set_bar_active tab s.

(** The body of the [for] loop of [_onSlotchange], from index [i] on, over
    the tabs still to visit: the tab elements and [this._active]. *)
Fixpoint slotchangeLoop (i : nat) (rest : list ref)
    (elements : ref → VanillaTab) (current : option ref)
  : (ref → VanillaTab) * option ref :=
  match rest with
  | [] => (elements, current)
  | tab :: rest =>
    let elements := alter (with_idx i) tab elements in
    match current with
    | Some _ =>
      slotchangeLoop (S i) rest (alter (with_active false) tab elements) current
    | None =>
      if active (elements tab)
      then slotchangeLoop (S i) rest elements (Some tab)
      else slotchangeLoop (S i) rest elements None
    end
  end.

(** [_onSlotchange], given [event.target.assignedElements()]. *)
Definition _onSlotchange (assignedElements : list ref) (s : State) : State :=
  let prevActive := _active s in
  let '(elements, current) :=
    slotchangeLoop 0 assignedElements (tabs s) None in
  {| tabs := elements;
     _tabs := assignedElements;
     _active := current;
     focused := focused s;
     dispatched :=
       match current, prevActive with
       | None, Some previous =>
         dispatched s ++
           [{| detail_tab := None; detail_previous := Some previous |}]
       | _, _ => dispatched s
       end |}.

(** [_onTabchange], given [event.detail.tab]; scrolling leaves the state as
    it is. *)
Definition _onTabchange (tab : option ref) (s : State) : State :=
  if decide (tab = get_active s) then s else set_active tab s.

(** [this._tabs[i]] for a number [i]: [None] is [undefined]. *)
Definition tabAt (s : State) (i : Z) : option ref :=
  if (i <? 0)%Z then None else _tabs s !! Z.to_nat i.

(** [this._active?.idx ?? 0] *)
Definition oldIdxOf (s : State) : Z :=
  match _active s with
  | Some current => Z.of_nat (idx (tabs s current))
  | None => 0
  end.

(** [tab.active = true; tab.focus()] *)
Definition activatedAndFocused (tab : ref) (s : State) : State :=
  focus tab (setTabActive tab true s).

(** [_onKeydown], given [event.key]. Writing [active] on [undefined] throws
    a [TypeError]. *)
Definition _onKeydown (key : string) (s : State) : Js.result State :=
  let oldIdx := oldIdxOf s in
  let newIdx :=
    if String.eqb key "ArrowLeft" then
      if (0 <? oldIdx)%Z then (oldIdx - 1)%Z else oldIdx
    else if String.eqb key "ArrowRight" then
      if (oldIdx <? Z.of_nat (List.length (_tabs s)) - 1)%Z
      then (oldIdx + 1)%Z else oldIdx
    else oldIdx in
  if (newIdx =? oldIdx)%Z then Js.Ok s
  else
    match tabAt s newIdx with
    | Some tab => Js.Ok (activatedAndFocused tab s)
    | None => Js.Throw "TypeError: cannot set properties of undefined"
    end.

(** At most one of the bar's tabs is active, and it is the one the bar
    holds in [_active]. *)
Definition atMostOneActive (s : State) : Prop :=
  ∀ tab, tab ∈ _tabs s → active (tabs s tab) = true → _active s = Some tab.

(** [tab] is at position [i] of [l], is active, and no tab before it is. *)
Definition firstActiveAt (elements : ref → VanillaTab) (l : list ref)
    (i : nat) (tab : ref) : Prop :=
  l !! i = Some tab ∧ active (elements tab) = true ∧
  ∀ j other, (j < i)%nat → l !! j = Some other → active (elements other) = false.

(** What the specification says of one keydown, with [oldIdx] the index of
    the active tab (0 when there is none) and [n] the number of tabs. *)
Definition keydownAsSpecified (key : string) (s : State) : Prop :=
  let oldIdx := oldIdxOf s in
  let n := Z.of_nat (List.length (_tabs s)) in
  (key = "ArrowLeft" →
     ((0 < oldIdx)%Z →
        ∃ tab, tabAt s (oldIdx - 1) = Some tab ∧
               _onKeydown key s = Js.Ok (activatedAndFocused tab s)) ∧
     ((oldIdx ≤ 0)%Z → _onKeydown key s = Js.Ok s)) ∧
  (key = "ArrowRight" →
     ((oldIdx < n - 1)%Z →
        ∃ tab, tabAt s (oldIdx + 1) = Some tab ∧
               _onKeydown key s = Js.Ok (activatedAndFocused tab s)) ∧
     ((n - 1 ≤ oldIdx)%Z → _onKeydown key s = Js.Ok s)) ∧
  (key ≠ "ArrowLeft" → key ≠ "ArrowRight" → _onKeydown key s = Js.Ok s).

(** [VanillaTab._onClick] *)
Definition _onClick (tab : ref) (s : State) : State := setTabActive tab true s.

(** [VanillaTab.update] of a tab that is assigned to the slot of the bar;
    [changesHasActive] is [changes.has('active')]. The event the tab
    dispatches bubbles to the slot, where the bar listens with
    [_onTabchange]; the bar's handler has returned when [dispatchEvent]
    returns. *)
Definition VanillaTab_update (tab : ref) (changesHasActive : bool) (s : State)
  : State :=
  if active (tabs s tab) && changesHasActive
  then _onTabchange (Some tab) s
  else s.

(** The bar is settled: its tabs are distinct, each carries its position as
    [idx], the tab the bar holds is one of them, and one of them is active
    exactly when the bar holds it. *)
Definition positioned (s : State) : Prop :=
  NoDup (_tabs s) ∧
  (∀ i tab, _tabs s !! i = Some tab → idx (tabs s tab) = i) ∧
  (∀ tab, tab ∈ _tabs s → (active (tabs s tab) = true ↔ _active s = Some tab)) ∧
  (∀ tab, _active s = Some tab → tab ∈ _tabs s).

End TabBar.

(** ** The file editor *)

Module FileEditor.

Inductive TypeEnum := ts | js | json | html | css.

(** [mimeTypeToTypeEnum]; [None] is [undefined]. *)
Definition mimeTypeToTypeEnum (mimeType : option string) : option TypeEnum :=
  match mimeType with
  | None => None
  | Some mimeType =>
    let encodingSepIndex := Js.indexOf mimeType ";" in
    let mimeType :=
      match encodingSepIndex with
      | Some i => Js.substring0 mimeType i
      | None => mimeType
      end in
    if String.eqb mimeType "video/mp2t" then Some ts
    else if String.eqb mimeType "text/javascript" then Some js
    else if String.eqb mimeType "application/javascript" then Some js
    else if String.eqb mimeType "application/json" then Some json
    else if String.eqb mimeType "text/html" then Some html
    else if String.eqb mimeType "text/css" then Some css
    else None
  end.

(** The mime type without its parameters, as the specification words it:
    everything before the first [;], the whole string when there is none. *)
Fixpoint stripParameters (mimeType : string) : string :=
  match mimeType with
  | EmptyString => EmptyString
  | String c rest =>
    if Ascii.eqb c ";" then EmptyString else String c (stripParameters rest)
  end.

(** The table of the specification, on a mime type without parameters. *)
Definition knownMimeTypes : list (string * TypeEnum) :=
  [ ("video/mp2t", ts);
    ("text/javascript", js);
    ("application/javascript", js);
    ("application/json", json);
    ("text/html", html);
    ("text/css", css) ].

(** *** The editor element and the project it is connected to *)

(** The parts of a [PlaygroundProject] the editor uses: its files, its
    diagnostics, and how often [saveDebounced()] has been called. An object
    of the [files] array is known by its position in the array. *)
Record PlaygroundProject := {
  files : option (list SampleFile);
  diagnostics : option (gmap string (list Lsp.Diagnostic));
  saveDebouncedCalls : nat;
}.

Inductive Pragmas := on | off | off_visible.

(** [PlaygroundFileEditor], with the [value] of its [playground-code-editor]
    child as [_editor_value]. *)
Record PlaygroundFileEditor := {
  _project : option PlaygroundProject;
  filename : option string;
  lineNumbers : bool;
  pragmas : Pragmas;
  readonly : bool;
  _editor_value : string;
}.

(** The properties [render] binds on the [playground-code-editor]. *)
Record CodeEditorProps := {
  prop_value : string;
  prop_type : option TypeEnum;
  prop_lineNumbers : bool;
  prop_readonly : bool;
  prop_pragmas : Pragmas;
  prop_diagnostics : option (list Lsp.Diagnostic);
}.

Section Element.
Variable this : PlaygroundFileEditor.

(** [this._project?.files ?? []] *)
Definition _files : list SampleFile :=
  match _project this with
  | Some project => default [] (files project)
  | None => []
  end.

(** Whether a string is truthy. *)
Definition truthy (s : string) : bool := negb (String.eqb s "").

(** [_currentFile], with the position of the file in [_files]. *)
Definition _currentFileAt : option (nat * SampleFile) :=
  match filename this with
  | Some filename =>
    if truthy filename
    then list_find (λ file : SampleFile, name file = filename) _files
    else None
  | None => None
  end.

Definition _currentFile : option SampleFile :=
  match _currentFileAt with
  | Some (_, file) => Some file
  | None => None
  end.

(** [this._project?.diagnostics?.get(key)] *)
Definition projectDiagnostics (key : string) : option (list Lsp.Diagnostic) :=
  match _project this with
  | Some project =>
    match diagnostics project with
    | Some d => d !! key
    | None => None
    end
  | None => None
  end.

(** [render]: [this._files] is an array, so the editor branch is taken. *)
Definition render : CodeEditorProps :=
  {| prop_value :=
       match _currentFile with
       | Some file => content file
       | None => ""
       end;
     prop_type :=
       match _currentFile with
       | Some file => mimeTypeToTypeEnum (contentType file)
       | None => None
       end;
     prop_lineNumbers := lineNumbers this;
     prop_readonly :=
       readonly this ||
       match _currentFile with Some _ => false | None => true end;
     prop_pragmas := pragmas this;
     prop_diagnostics :=
       projectDiagnostics
         match _currentFile with
         | Some file => name file
         | None => ""
         end |}.

Definition with_content (value : string) (file : SampleFile) : SampleFile :=
  {| name := name file; content := value; contentType := contentType file |}.

(** [_onEdit] *)
Definition _onEdit : PlaygroundFileEditor :=
  let value := _editor_value this in
  match _currentFileAt, _project this with
  | Some (i, _), Some project =>
    {| _project :=
         Some {| files :=
                   match files project with
                   | Some l => Some (alter (with_content value) i l)
                   | None => None
                   end;
                 diagnostics := diagnostics project;
                 saveDebouncedCalls := S (saveDebouncedCalls project) |};
       filename := filename this;
       lineNumbers := lineNumbers this;
       pragmas := pragmas this;
       readonly := readonly this;
       _editor_value := _editor_value this |}
  | _, _ => this
  end.

End Element.

(** The value the specification gives the editor: the content of the project
    file whose name equals [filename], the empty string when there is none. *)
Definition valueByName (this : PlaygroundFileEditor) : string :=
  match filename this with
  | Some filename =>
    match List.find (λ file, String.eqb (name file) filename) (_files this) with
    | Some file => content file
    | None => ""
    end
  | None => ""
  end.

(** [_onProjectFilesChanged]: [this.filename ??= this._files[0]?.name]. *)
Definition _onProjectFilesChanged (this : PlaygroundFileEditor)
  : PlaygroundFileEditor :=
  {| _project := _project this;
     filename :=
       match filename this with
       | Some filename => Some filename
       | None =>
         match _files this with
         | file :: _ => Some (name file)
         | [] => None
         end
       end;
     lineNumbers := lineNumbers this;
     pragmas := pragmas this;
     readonly := readonly this;
     _editor_value := _editor_value this |}.

End FileEditor.

(** ** A small stand-in for what the worker is given

    The statements below hold for any compiler, resolver and URL parser; to
    run them on concrete inputs, here is a compiler that reports one
    diagnostic per file and emits every source text under its own name, a
    resolver that calls every specifier not starting with a dot bare, and a
    URL constructor that joins base and path. *)

Module Toy.
Import Worker.

#[local] Instance typescript : TypeScript :=
  {| SourceFile := string * string;
     Program := gmap string FileRecord;
     DiagnosticMessageText := string;
     flattenDiagnosticMessageText := λ text _, text;
     getLineAndCharacterOfPosition := λ _ position,
       {| Lsp.line := 0; Lsp.character := position |} |}.

Definition diagnosticAt (category : DiagnosticCategory) (text : string)
    (file : option (string * string)) : TsDiagnostic :=
  {| category := category;
     code := 1005;
     file := file;
     start := Some 0%Z;
     length := Some (Z.of_nat (String.length text));
     messageText := text;
     source := None |}.

Definition sourceFileOf (program : gmap string FileRecord) (url : string)
  : option (string * string) :=
  match program !! url with
  | Some (Resolved _ text) => Some (url, text)
  | _ => None
  end.

#[local] Instance languageService : LanguageService :=
  {| getProgram := λ host, Some (files host);
     getSourceFile := sourceFileOf;
     emit := λ _ sourceFile _,
       match sourceFile with
       | Some (url, text) => [(url, text)]
       | None => []
       end;
     getSyntacticDiagnostics := λ host url,
       [diagnosticAt Error "syntax" (sourceFileOf (files host) url)];
     getSemanticDiagnostics := λ host url,
       [diagnosticAt Warning "types" (sourceFileOf (files host) url)];
     getProgram_throws := λ _, None;
     emit_throws := λ _ _ _, None;
     getSyntacticDiagnostics_throws := λ _ _, None;
     getSemanticDiagnostics_throws := λ _ _, None |}.

#[local] Instance workerGlobal : WorkerGlobal :=
  {| origin := "https://playground.test";
     URL_href := λ relative base, base +:+ "/" +:+ relative;
     URL_throws := λ _ _, None |}.

#[local] Instance moduleResolution : ModuleResolution :=
  {| ModuleImportMap := unit;
     resolve := λ _ specifier _,
       if String.prefix "." specifier
       then {| type := "relative"; url := specifier |}
       else {| type := "bare";
               url := "https://unpkg.com/" +:+ specifier +:+ "?module" |} |}.

Definition indexTs : SampleFile :=
  {| name := "index.ts";
     content := "import {html} from 'lit';";
     contentType := Some "video/mp2t" |}.

Definition styleCss : SampleFile :=
  {| name := "style.css";
     content := "p { color: red }";
     contentType := Some "text/css" |}.

Definition program : Node :=
  OtherNode 0
    [ ImportDeclaration (Some "{html}") "lit";
      ImportDeclaration None "./local.js";
      OtherNode 1 [] ].

(** A language service that has no program. *)
#[local] Instance languageServiceWithoutProgram : LanguageService :=
  {| getProgram := λ _, None;
     getSourceFile := sourceFileOf;
     emit := λ _ _ _, [];
     getSyntacticDiagnostics := λ _ _, [];
     getSemanticDiagnostics := λ _ _, [];
     getProgram_throws := λ _, None;
     emit_throws := λ _ _ _, None;
     getSyntacticDiagnostics_throws := λ _ _, None;
     getSemanticDiagnostics_throws := λ _ _, None |}.

(** A resolver that also knows URLs: what starts with [https:] is a URL. *)
#[local] Instance moduleResolutionWithUrls : ModuleResolution :=
  {| ModuleImportMap := unit;
     resolve := λ _ specifier _,
       if String.prefix "." specifier
       then {| type := "relative"; url := specifier |}
       else if String.prefix "https:" specifier
       then {| type := "url"; url := specifier |}
       else {| type := "bare";
               url := "https://unpkg.com/" +:+ specifier +:+ "?module" |} |}.

(** A project with two files of the same name. *)
Definition twoVersions : list SampleFile :=
  [ {| name := "a.ts"; content := "let a = 1;"; contentType := None |};
    styleCss;
    {| name := "a.ts"; content := "let a = 2;"; contentType := None |} ].

(** A tree with a relative import only. *)
Definition relativeOnly : Node :=
  OtherNode 0 [ImportDeclaration None "./a.js"; OtherNode 2 []].

(** A settled bar of two tabs, 10 and 11, holding the first. *)
Definition twoTabs : TabBar.State :=
  {| TabBar.tabs := λ tab,
       {| TabBar.active := (tab =? 10)%nat; TabBar.idx := tab - 10 |};
     TabBar._tabs := [10; 11]%nat;
     TabBar._active := Some 10%nat;
     TabBar.focused := None;
     TabBar.dispatched := [] |}.

(** A language service whose diagnostics quote the text of the file. *)
#[local] Instance quotingService : LanguageService :=
  {| getProgram := λ host, Some (files host);
     getSourceFile := sourceFileOf;
     emit := λ _ sourceFile _,
       match sourceFile with
       | Some (url, text) => [(url, text)]
       | None => []
       end;
     getSyntacticDiagnostics := λ host url,
       match readFile host url with
       | Some text => [diagnosticAt Error text None]
       | None => []
       end;
     getSemanticDiagnostics := λ host url,
       match readFile host url with
       | Some text => [diagnosticAt Warning text None]
       | None => []
       end;
     getProgram_throws := λ _, None;
     emit_throws := λ _ _ _, None;
     getSyntacticDiagnostics_throws := λ _ _, None;
     getSemanticDiagnostics_throws := λ _ _, None |}.

(** A language service that throws for a file that is not in the map. *)
#[local] Instance throwingService : LanguageService :=
  {| getProgram := λ host, Some (files host);
     getSourceFile := sourceFileOf;
     emit := λ _ _ _, [];
     getSyntacticDiagnostics := λ _ _, [];
     getSemanticDiagnostics := λ _ _, [];
     getProgram_throws := λ _, None;
     emit_throws := λ _ _ _, None;
     getSyntacticDiagnostics_throws := λ host url,
       if fileExists host url then None
       else Some "Error: Could not find source file";
     getSemanticDiagnostics_throws := λ host url,
       if fileExists host url then None
       else Some "Error: Could not find source file" |}.

(** A worker global whose [URL] constructor rejects what starts with
    [http://[], an IPv6 host, and does not end with the closing bracket. *)
#[local] Instance strictGlobal : WorkerGlobal :=
  {| origin := "https://playground.test";
     URL_href := λ relative base, base +:+ "/" +:+ relative;
     URL_throws := λ relative _,
       if String.prefix "http://[" relative && negb (Js.endsWith relative "]")
       then Some "TypeError: Invalid URL"
       else None |}.

(** A project with a file name that is no URL. *)
Definition badName : list SampleFile :=
  [ indexTs;
    {| name := "http://[.ts"; content := "let b;"; contentType := None |} ].

(** A worker global whose [URL] constructor drops a leading [./] of the
    relative reference, as the URL standard has it. *)
#[local] Instance normalisingGlobal : WorkerGlobal :=
  {| origin := "https://playground.test";
     URL_href := λ relative base,
       base +:+ "/" +:+
       (if String.prefix "./" relative
        then String.substring 2 (String.length relative - 2) relative
        else relative);
     URL_throws := λ _ _, None |}.

(** A project with two names for one URL. *)
Definition twoNames : list SampleFile :=
  [ {| name := "a.ts"; content := "let a = 1;"; contentType := None |};
    {| name := "./a.ts"; content := "let a = 2;"; contentType := None |} ].

(** What the compiler's own transformation does to [program], in which
    nothing uses the binding of the first import: an import with a clause
    whose bindings are never used is dropped. *)
Fixpoint dropUnusedImports (node : Node) : list Node :=
  match node with
  | ImportDeclaration (Some _) _ => []
  | ImportDeclaration None specifier => [ImportDeclaration None specifier]
  | OtherNode kind children =>
    [OtherNode kind (List.concat (List.map dropUnusedImports children))]
  end.

Definition compilerTransform (node : Node) : Node :=
  match dropUnusedImports node with
  | [node] => node
  | _ => node
  end.

(** A tree with two imports that bind nothing, which the compiler keeps. *)
Definition sideEffectImports : Node :=
  OtherNode 0
    [ ImportDeclaration None "lit";
      ImportDeclaration None "./local.js";
      OtherNode 1 [] ].

End Toy.

(** * Proofs *)

(** ** The language-service host *)

Module HostFacts.
Import Worker.

Lemma fileExists_resolved (host : WorkerLanguageServiceHost) fileName :
  fileExists host fileName = true ↔
  ∃ originalUrl text, files host !! fileName = Some (Resolved originalUrl text).
Proof.
  unfold fileExists. split.
  - destruct (files host !! fileName) as [[| o c |]|]; try discriminate.
    intros _. by exists o, c.
  - intros (o & c & ->). reflexivity.
Qed.

Lemma getScriptSnapshot_readFile (host : WorkerLanguageServiceHost) fileName :
  getScriptSnapshot host fileName =
  ScriptSnapshot_fromString <$> readFile host fileName.
Proof.
  unfold getScriptSnapshot, fileExists, readFile.
  by destruct (files host !! fileName) as [[| o c |]|].
Qed.

(** C4. [fileExists] is true exactly for the names the file map holds as
    resolved; then [readFile] gives that record's content and
    [getScriptSnapshot] a snapshot of it; otherwise (no record, or a pending
    or redirected one) both give [undefined]. *)
Theorem host_sees_resolved_files_only
    (host : WorkerLanguageServiceHost) (fileName : string) :
  (fileExists host fileName = true ↔
     ∃ originalUrl text,
       files host !! fileName = Some (Resolved originalUrl text)) ∧
  (∀ originalUrl text,
     files host !! fileName = Some (Resolved originalUrl text) →
     readFile host fileName = Some text ∧
     getScriptSnapshot host fileName = Some (ScriptSnapshot_fromString text)) ∧
  (fileExists host fileName = false →
     readFile host fileName = None ∧ getScriptSnapshot host fileName = None) ∧
  (files host !! fileName = None ∨
   files host !! fileName = Some Pending ∨
   (∃ redirectedUrl, files host !! fileName = Some (Redirected redirectedUrl)) →
     fileExists host fileName = false).
Proof.
  split; [apply fileExists_resolved|].
  rewrite getScriptSnapshot_readFile. unfold fileExists, readFile.
  split; [|split].
  - intros o c ->. done.
  - destruct (files host !! fileName) as [[| o c |]|]; done.
  - intros [-> | [-> | [u ->]]]; reflexivity.
Qed.

Lemma host_sees_resolved_files_only_witness :
  let host :=
    {| host_compilerOptions := compilerOptions;
       packageRoot := "https://playground.test";
       files := <["a.ts" := Resolved None "let a = 1;"]>
                  (<["b.ts" := Pending]>
                    (<["c.ts" := Redirected "d.ts"]> ∅)) |} in
  (fileExists host "a.ts" = true ∧
   readFile host "a.ts" = Some "let a = 1;" ∧
   getScriptSnapshot host "a.ts" = Some (ScriptSnapshot_fromString "let a = 1;")) ∧
  (fileExists host "b.ts" = false ∧
   readFile host "b.ts" = None ∧ getScriptSnapshot host "b.ts" = None) ∧
  (fileExists host "c.ts" = false) ∧
  (fileExists host "e.ts" = false).
Proof.
  intros host.
  pose proof (host_sees_resolved_files_only host "a.ts") as (Ha1 & Ha2 & _ & _).
  pose proof (host_sees_resolved_files_only host "b.ts") as (_ & _ & Hb3 & Hb4).
  pose proof (host_sees_resolved_files_only host "c.ts") as (_ & _ & _ & Hc4).
  pose proof (host_sees_resolved_files_only host "e.ts") as (_ & _ & _ & He4).
  assert (Hb : fileExists host "b.ts" = false).
  { apply Hb4. right. left. reflexivity. }
  split; [|split; [|split]].
  - split.
    + apply Ha1. exists None, "let a = 1;". reflexivity.
    + apply (Ha2 None "let a = 1;"). reflexivity.
  - split; [exact Hb | apply Hb3, Hb].
  - apply Hc4. right. right. exists "d.ts". reflexivity.
  - apply He4. left. reflexivity.
Defined.

End HostFacts.

(** ** Diagnostics *)

Module DiagnosticFacts.
Import Worker.

Section Conversion.
Context `{TypeScript}.

Lemma severity_of (d : TsDiagnostic) :
  Lsp.severity (makeLspDiagnostic d) =
  Some match category d with
       | Error => 1%Z
       | Warning => 2%Z
       | Message => 3%Z
       | Suggestion => 4%Z
       end.
Proof. cbn. by destruct (category d). Qed.

(** C9. [makeLspDiagnostic] gives every diagnostic its code, its flattened
    message and a severity (Error 1, Warning 2, Message 3, Suggestion 4),
    the source [typescript] when there is none, a start at line 0, character 0 when file or start offset is
    missing, and an end there when file, start offset or length is missing;
    otherwise the positions are those the source file computes. *)
Theorem makeLspDiagnostic_fields (d : TsDiagnostic) :
  Lsp.code (makeLspDiagnostic d) = code d ∧
  Lsp.message (makeLspDiagnostic d) =
    flattenDiagnosticMessageText (messageText d) (String "010"%char EmptyString) ∧
  Lsp.severity (makeLspDiagnostic d) =
    Some match category d with
         | Error => 1%Z
         | Warning => 2%Z
         | Message => 3%Z
         | Suggestion => 4%Z
         end ∧
  (source d = None → Lsp.source (makeLspDiagnostic d) = "typescript") ∧
  (∀ text, source d = Some text → Lsp.source (makeLspDiagnostic d) = text) ∧
  (file d = None ∨ start d = None →
     Lsp.start (Lsp.range (makeLspDiagnostic d)) =
       {| Lsp.line := 0; Lsp.character := 0 |}) ∧
  (file d = None ∨ start d = None ∨ length d = None →
     Lsp.end_ (Lsp.range (makeLspDiagnostic d)) =
       {| Lsp.line := 0; Lsp.character := 0 |}) ∧
  (∀ f s, file d = Some f → start d = Some s →
     Lsp.start (Lsp.range (makeLspDiagnostic d)) =
       getLineAndCharacterOfPosition f s ∧
     ∀ len, length d = Some len →
       Lsp.end_ (Lsp.range (makeLspDiagnostic d)) =
         getLineAndCharacterOfPosition f (s + len)).
Proof.
  split; [reflexivity|]. split; [reflexivity|].
  split; [apply severity_of|].
  cbn. split; [|split; [|split; [|split]]].
  - by intros ->.
  - by intros text ->.
  - intros [-> | ->]; [done|]. by destruct (file d).
  - intros [-> | [-> | ->]]; [done| |].
    + by destruct (file d).
    + destruct (file d); [|done]. by destruct (start d).
  - intros f s Hfile Hstart. rewrite Hfile, Hstart. split; [done|].
    intros len Hlen. by rewrite Hlen.
Qed.

End Conversion.

Lemma makeLspDiagnostic_fields_witness :
  let withFile := Toy.diagnosticAt Error "syntax" (Some ("a.ts", "let")) in
  let withoutFile := Toy.diagnosticAt Suggestion "hint" None in
  Lsp.severity (makeLspDiagnostic withFile) = Some 1%Z ∧
  Lsp.source (makeLspDiagnostic withFile) = "typescript" ∧
  Lsp.end_ (Lsp.range (makeLspDiagnostic withFile)) =
    {| Lsp.line := 0; Lsp.character := 6 |} ∧
  Lsp.severity (makeLspDiagnostic withoutFile) = Some 4%Z ∧
  Lsp.start (Lsp.range (makeLspDiagnostic withoutFile)) =
    {| Lsp.line := 0; Lsp.character := 0 |} ∧
  Lsp.end_ (Lsp.range (makeLspDiagnostic withoutFile)) =
    {| Lsp.line := 0; Lsp.character := 0 |}.
Proof.
  intros withFile withoutFile.
  pose proof (makeLspDiagnostic_fields withFile)
    as (_ & _ & Hs & Hsrc & _ & _ & _ & Hpos).
  pose proof (makeLspDiagnostic_fields withoutFile)
    as (_ & _ & Hs' & _ & _ & Hst & Hen & _).
  split; [exact Hs|].
  split; [apply Hsrc; reflexivity|].
  split.
  { destruct (Hpos ("a.ts", "let") 0%Z eq_refl eq_refl) as [_ Hend].
    exact (Hend 6%Z eq_refl). }
  split; [exact Hs'|].
  split; [apply Hst; left; reflexivity|].
  apply Hen; left; reflexivity.
Defined.

End DiagnosticFacts.

(** ** The bare-specifier transform *)

Module TransformFacts.
Import Worker.

(** Induction on a tree whose children hang in a list. *)
Lemma Node_forall_ind (P : Node → Prop) :
  (∀ importClause specifier, P (ImportDeclaration importClause specifier)) →
  (∀ kind children, Forall P children → P (OtherNode kind children)) →
  ∀ node, P node.
Proof.
  intros Himport Hother. fix IH 1. intros [importClause specifier|kind children].
  - apply Himport.
  - apply Hother. induction children as [|child children IHc]; constructor.
    + apply IH.
    + exact IHc.
Qed.

Section Visitor.
Context `{WorkerGlobal} `{ModuleResolution}.
Variable importMap : ModuleImportMap.

Lemma visitor_specifiers node :
  importSpecifiers (visitor importMap node) =
  List.map (rewrittenSpecifier importMap) (importSpecifiers node).
Proof.
  induction node as [importClause specifier|kind children IH]
    using Node_forall_ind.
  - cbn. unfold rewrittenSpecifier.
    by destruct (String.eqb _ "bare").
  - cbn [visitor importSpecifiers]. rewrite List.map_map.
    induction IH as [|child children Hchild _ IHrest]; [reflexivity|].
    cbn [List.map List.concat]. rewrite List.map_app, Hchild.
    f_equal. exact IHrest.
Qed.

Lemma visitor_keeps_the_rest node :
  withoutSpecifiers (visitor importMap node) = withoutSpecifiers node.
Proof.
  induction node as [importClause specifier|kind children IH]
    using Node_forall_ind.
  - cbn. by destruct (String.eqb _ "bare").
  - cbn [visitor withoutSpecifiers]. f_equal. rewrite List.map_map.
    induction IH as [|child children Hchild _ IHrest]; [reflexivity|].
    cbn [List.map]. by rewrite Hchild, IHrest.
Qed.

(** C3, amended. The tree [emit] prints for a file is the tree the
    compiler's own transformations leave of it, with its import declarations
    in the same places: a specifier the resolver calls bare is replaced by
    the resolver's URL, every other specifier is the one it was, and nothing
    but specifiers differs. *)
Theorem visitor_rewrites_bare_specifiers
    (compilerTransform : Node → Node) (sourceFile : Node) :
  let transformed := compilerTransform sourceFile in
  let emitted := emittedTree compilerTransform importMap sourceFile in
  importSpecifiers emitted =
    List.map (rewrittenSpecifier importMap) (importSpecifiers transformed) ∧
  withoutSpecifiers emitted = withoutSpecifiers transformed ∧
  ∀ (i : nat) (specifier : string),
    importSpecifiers transformed !! i = Some specifier →
    let r := resolve importMap specifier origin in
    (type r = "bare" → importSpecifiers emitted !! i = Some (url r)) ∧
    (type r ≠ "bare" → importSpecifiers emitted !! i = Some specifier).
Proof.
  intros transformed emitted. subst emitted. unfold emittedTree.
  fold transformed.
  split; [apply visitor_specifiers|].
  split; [apply visitor_keeps_the_rest|].
  intros i specifier Hi. set (r := resolve importMap specifier origin).
  rewrite visitor_specifiers.
  change (List.map ?f ?l) with (f <$> l).
  rewrite list_lookup_fmap, Hi. cbn. unfold rewrittenSpecifier. fold r.
  split; intros Hr.
  - by rewrite Hr.
  - by destruct (String.eqb_spec (type r) "bare").
Qed.

End Visitor.

(** C3, counterexample. The file imports [{html}] from [lit] and never uses
    it. The compiler drops the import before the visitor sees the tree, so
    the emitted output has no import of [lit], neither with the specifier
    rewritten nor with it unchanged. *)
Lemma emit_counterexample :
  ¬ @emitAsSpecified Toy.workerGlobal Toy.moduleResolution
      Toy.compilerTransform tt Toy.program.
Proof. vm_compute. discriminate. Qed.

Lemma visitor_rewrites_bare_specifiers_witness :
  let emitted :=
    @emittedTree Toy.workerGlobal Toy.moduleResolution
      Toy.compilerTransform tt Toy.sideEffectImports in
  importSpecifiers emitted !! 0%nat = Some "https://unpkg.com/lit?module" ∧
  importSpecifiers emitted !! 1%nat = Some "./local.js".
Proof.
  intros emitted.
  pose proof (@visitor_rewrites_bare_specifiers
                Toy.workerGlobal Toy.moduleResolution tt
                Toy.compilerTransform Toy.sideEffectImports)
    as (_ & _ & Hat).
  split.
  - apply (Hat 0%nat "lit" eq_refl). reflexivity.
  - apply (Hat 1%nat "./local.js" eq_refl). discriminate.
Defined.

End TransformFacts.

(** ** compileProject *)

Module CompileFacts.
Import Worker.

(** *** Loops that fill a [Map] *)

Section Folds.
Context `{Countable K} {V A : Type}.

(** A loop of [set] calls builds the map in which the last write to a key
    wins. *)
Lemma foldl_insert_list_to_map (f : gmap K V → A → gmap K V) (kv : A → K * V) :
  (∀ m a, f m a = <[(kv a).1 := (kv a).2]> m) →
  ∀ l m0, foldl f m0 l = list_to_map (reverse (kv <$> l)) ∪ m0.
Proof.
  intros Hf l. induction l as [|a l IH] using rev_ind; intros m0.
  - cbn. by rewrite (left_id_L ∅ (∪)).
  - rewrite foldl_app. cbn [foldl].
    rewrite Hf, IH, fmap_app, reverse_app. cbn.
    by rewrite insert_union_l.
Qed.

Lemma foldl_insert_empty (f : gmap K V → A → gmap K V) (kv : A → K * V) :
  (∀ m a, f m a = <[(kv a).1 := (kv a).2]> m) →
  ∀ l, foldl f ∅ l = list_to_map (reverse (kv <$> l)).
Proof.
  intros Hf l. rewrite (foldl_insert_list_to_map f kv Hf).
  by rewrite (right_id_L ∅ (∪)).
Qed.

Lemma written_lookup_Some (kv : A → K * V) (l : list A) (k : K) (v : V) :
  (list_to_map (reverse (kv <$> l)) : gmap K V) !! k = Some v →
  ∃ a, a ∈ l ∧ kv a = (k, v).
Proof.
  intros Hk.
  apply elem_of_list_to_map_2, elem_of_reverse, list_elem_of_fmap in Hk.
  destruct Hk as (a & Heq & Ha). by exists a.
Qed.

Lemma written_is_Some (kv : A → K * V) (l : list A) (a : A) :
  a ∈ l →
  is_Some ((list_to_map (reverse (kv <$> l)) : gmap K V) !! (kv a).1).
Proof.
  intros Ha.
  apply not_eq_None_Some. rewrite <- not_elem_of_list_to_map.
  intros Hnot. apply Hnot.
  apply list_elem_of_fmap. exists (kv a). split; [done|].
  apply elem_of_reverse, list_elem_of_fmap. by exists a.
Qed.

(** When the value written depends on the key alone, the order of the
    writes does not matter. *)
Lemma written_by_key (kv : A → K * V) (l : list A) (a : A) :
  (∀ a1 a2, a1 ∈ l → a2 ∈ l → (kv a1).1 = (kv a2).1 → (kv a1).2 = (kv a2).2) →
  a ∈ l →
  (list_to_map (reverse (kv <$> l)) : gmap K V) !! (kv a).1 = Some (kv a).2.
Proof.
  intros Hkey Ha.
  destruct (written_is_Some kv l a Ha) as [v Hv].
  rewrite Hv. f_equal.
  destruct (written_lookup_Some kv l _ _ Hv) as (a' & Ha' & Heq).
  rewrite (Hkey a a' Ha Ha'); by rewrite Heq.
Qed.


End Folds.

(** A loop over two accumulators that do not read each other is two loops. *)
Lemma foldl_pair {A B X : Type} (F : A * B → X → A * B)
    (f : A → X → A) (g : B → X → B) :
  (∀ a b x, F (a, b) x = (f a x, g b x)) →
  ∀ l a b, foldl F (a, b) l = (foldl f a l, foldl g b l).
Proof.
  intros HF l. induction l as [|x l IH]; intros a b; [reflexivity|].
  cbn [foldl]. by rewrite HF, IH.
Qed.

Section Compile.
Context `{LanguageService} `{WorkerGlobal} `{ModuleResolution}.

Lemma elem_of_makeInputFiles projectFiles input :
  input ∈ makeInputFiles projectFiles ↔
  ∃ file, file ∈ projectFiles ∧ isTsOrJsFile (name file) = true ∧
          input = (file, URL_href (name file) origin).
Proof.
  unfold makeInputFiles.
  rewrite list_elem_of_In, List.in_map_iff. split.
  - intros (file & <- & Hin). apply List.filter_In in Hin as [Hin Hts].
    exists file. by rewrite list_elem_of_In.
  - intros (file & Hin & Hts & ->). exists file. split; [done|].
    apply List.filter_In. by rewrite <- list_elem_of_In.
Qed.


Lemma makeInputFiles_filter projectFiles :
  makeInputFiles (List.filter (λ file, isTsOrJsFile (name file)) projectFiles)
  = makeInputFiles projectFiles.
Proof.
  unfold makeInputFiles. f_equal.
  induction projectFiles as [|file rest IH]; [reflexivity|].
  cbn [List.filter]. destruct (isTsOrJsFile (name file)) eqn:E.
  - cbn [List.filter]. by rewrite E, IH.
  - exact IH.
Qed.


Lemma loadInputFiles_loaded inputs :
  (loadInputFiles inputs).1 = list_to_map (reverse (inputEntry <$> inputs)).
Proof.
  unfold loadInputFiles.
  rewrite (foldl_pair _
             (λ loaded input, <[(inputEntry input).1 := (inputEntry input).2]> loaded)
             (λ fetcher (input : SampleFile * string),
                (fetcher ++ [BareModuleTypings (content input.1)])%list)).
  - cbn [fst]. by apply foldl_insert_empty.
  - by intros a b [file url].
Qed.

Lemma writeFiles_list_to_map emitted writes :
  writeFiles emitted writes = list_to_map (reverse writes) ∪ emitted.
Proof.
  unfold writeFiles.
  rewrite (foldl_insert_list_to_map _ id).
  - by rewrite list_fmap_id.
  - by intros m [fileName data].
Qed.

Lemma writeFiles_app emitted writes1 writes2 :
  writeFiles emitted (writes1 ++ writes2)%list =
  writeFiles (writeFiles emitted writes1) writes2.
Proof. unfold writeFiles. by rewrite foldl_app. Qed.

Lemma fastPass_spec importMap loaded program inputs :
  fastPass importMap loaded program inputs =
  (list_to_map (reverse (emitCalls importMap program inputs)),
   list_to_map (reverse (fastEntry loaded <$> inputs))).
Proof.
  unfold fastPass.
  rewrite (foldl_pair _
    (λ emitted (input : SampleFile * string),
       writeFiles emitted
         (emit program (getSourceFile program input.2) (visitor importMap)))
    (λ fast input, <[(fastEntry loaded input).1 := (fastEntry loaded input).2]> fast)).
  - f_equal.
    + rewrite <- (right_id_L ∅ (∪) (list_to_map _)).
      rewrite <- writeFiles_list_to_map. unfold emitCalls.
      generalize (∅ : gmap string string).
      induction inputs as [|input inputs IH]; intros emitted; [reflexivity|].
      cbn [foldl List.map List.concat]. by rewrite writeFiles_app, IH.
    + by apply foldl_insert_empty.
  - by intros a b [file url].
Qed.



Lemma filter_map_inputs {A B : Type} (g : A → B) (P : B → bool) (l : list A) :
  List.filter P (List.map g l) = List.map g (List.filter (λ a, P (g a)) l).
Proof.
  induction l as [|a l IH]; [reflexivity|].
  cbn. destruct (P (g a)); cbn; by rewrite IH.
Qed.

(** In a loop of [set] calls the last write to a key is the one read back. *)
Lemma written_last `{Countable K} {V A : Type} (kv : A → K * V) (l : list A) (k : K) :
  (list_to_map (reverse (kv <$> l)) : gmap K V) !! k =
  (λ a, (kv a).2) <$> list.last (List.filter (λ a, bool_decide ((kv a).1 = k)) l).
Proof.
  induction l as [|a l IH] using rev_ind; [reflexivity|].
  rewrite fmap_app, reverse_app, List.filter_app. cbn.
  rewrite lookup_insert. destruct (decide ((kv a).1 = k)) as [Heq|Hne].
  - rewrite (bool_decide_eq_true_2 _ Heq). by rewrite last_snoc.
  - rewrite (bool_decide_eq_false_2 _ Hne). by rewrite app_nil_r.
Qed.

(** *** Calls that may throw *)

Lemma mapM_orThrow {A B : Type} (f : A → Js.result B)
    (thrown : A → option string) (value : A → B) (l : list A) :
  (∀ a, f a = Js.orThrow (thrown a) (value a)) →
  match Js.mapM f l with
  | Js.Ok bs => bs = value <$> l ∧ ∀ a, a ∈ l → thrown a = None
  | Js.Throw message => ∃ a, a ∈ l ∧ thrown a = Some message
  end.
Proof.
  intros Hf. induction l as [|a l IH]; cbn [Js.mapM].
  - split; [done|]. intros a Ha. by apply elem_of_nil in Ha.
  - rewrite Hf. destruct (thrown a) as [message|] eqn:Ha; cbn.
    + exists a. split; [apply list_elem_of_here|done].
    + destruct (Js.mapM f l) as [bs|message]; cbn.
      * destruct IH as [-> Hnone]. split; [done|].
        intros a' [->|Hin]%elem_of_cons; [done|by apply Hnone].
      * destruct IH as (a' & Hin & Hthrown). exists a'.
        split; [by apply list_elem_of_further|done].
Qed.

Lemma foldlM_orThrow {A B : Type} (f : A → B → Js.result A)
    (thrown : B → option string) (value : A → B → A) (l : list B) :
  (∀ a b, f a b = Js.orThrow (thrown b) (value a b)) →
  ∀ a,
    match Js.foldlM f a l with
    | Js.Ok r => r = foldl value a l ∧ ∀ b, b ∈ l → thrown b = None
    | Js.Throw message => ∃ b, b ∈ l ∧ thrown b = Some message
    end.
Proof.
  intros Hf. induction l as [|b l IH]; intros a; cbn [Js.foldlM foldl].
  - split; [done|]. intros b Hb. by apply elem_of_nil in Hb.
  - rewrite Hf. destruct (thrown b) as [message|] eqn:Hb; cbn.
    + exists b. split; [apply list_elem_of_here|done].
    + specialize (IH (value a b)).
      destruct (Js.foldlM f (value a b) l) as [r|message].
      * destruct IH as [-> Hnone]. split; [done|].
        intros b' [->|Hin]%elem_of_cons; [done|by apply Hnone].
      * destruct IH as (b' & Hin & Hthrown). exists b'.
        split; [by apply list_elem_of_further|done].
Qed.

Lemma inputFilesOf_cases projectFiles :
  match inputFilesOf projectFiles with
  | Js.Ok inputs =>
    inputs = makeInputFiles projectFiles ∧
    ∀ file, file ∈ projectFiles → isTsOrJsFile (name file) = true →
      URL_throws (name file) origin = None
  | Js.Throw message =>
    ∃ file, file ∈ projectFiles ∧ isTsOrJsFile (name file) = true ∧
      URL_throws (name file) origin = Some message
  end.
Proof.
  unfold inputFilesOf.
  pose proof (mapM_orThrow
    (λ file, url ←! newURL (name file) origin; Js.Ok (file, url))
    (λ file, URL_throws (name file) origin)
    (λ file, (file, URL_href (name file) origin))
    (List.filter (λ file, isTsOrJsFile (name file)) projectFiles)) as Hcases.
  destruct (Js.mapM _ _) as [inputs|message].
  - destruct Hcases as [-> Hnone].
    { intros file. unfold newURL. by destruct (URL_throws _ _). }
    split; [done|]. intros file Hin Hts. apply Hnone.
    apply list_elem_of_In, List.filter_In. by rewrite <- list_elem_of_In.
  - destruct Hcases as (file & Hin & Hthrown).
    { intros file. unfold newURL. by destruct (URL_throws _ _). }
    apply list_elem_of_In, List.filter_In in Hin as [Hin Hts].
    exists file. by rewrite list_elem_of_In.
Qed.

Lemma programOf_cases host :
  match programOf host with
  | Js.Ok program =>
    getProgram_throws host = None ∧ getProgram host = Some program
  | Js.Throw message =>
    getProgram_throws host = Some message ∨
    (getProgram_throws host = None ∧ getProgram host = None ∧
     message = "Unexpected error: program was undefined")
  end.
Proof.
  unfold programOf. destruct (getProgram_throws host) as [message|]; cbn.
  - by left.
  - destruct (getProgram host) as [program|]; [done|]. by right.
Qed.

(** Whether the body of the second loop throws for an input file. *)
Lemma fastStep_orThrow importMap loaded program maps input :
  fastStep importMap loaded program maps input =
  Js.orThrow
    (match getSyntacticDiagnostics_throws (hostOf loaded) input.2 with
     | Some message => Some message
     | None =>
       emit_throws program (getSourceFile program input.2) (visitor importMap)
     end)
    ((λ '(emittedFiles, fastDiagnostics) '(file, url),
        let fastDiagnostics :=
          <[name file :=
              makeLspDiagnostic <$>
                getSyntacticDiagnostics (hostOf loaded) url]>
            fastDiagnostics in
        let sourceFile := getSourceFile program url in
        (writeFiles emittedFiles
           (emit program sourceFile (visitor importMap)),
         fastDiagnostics)) maps input).
Proof.
  destruct maps as [emitted fast], input as [file url]. cbn.
  destruct (getSyntacticDiagnostics_throws _ _); [done|]. cbn.
  by destruct (emit_throws _ _ _).
Qed.

Lemma fastPassM_cases importMap loaded program inputs :
  match Js.foldlM (fastStep importMap loaded program) (∅, ∅) inputs with
  | Js.Ok maps =>
    maps = fastPass importMap loaded program inputs ∧
    ∀ input, input ∈ inputs →
      getSyntacticDiagnostics_throws (hostOf loaded) input.2 = None ∧
      emit_throws program (getSourceFile program input.2) (visitor importMap)
        = None
  | Js.Throw message =>
    ∃ input, input ∈ inputs ∧
      (getSyntacticDiagnostics_throws (hostOf loaded) input.2 = Some message ∨
       emit_throws program (getSourceFile program input.2) (visitor importMap)
         = Some message)
  end.
Proof.
  pose proof (foldlM_orThrow _ _ _ inputs
                (fastStep_orThrow importMap loaded program) (∅, ∅)) as Hcases.
  destruct (Js.foldlM _ _ _) as [maps|message].
  - destruct Hcases as [-> Hnone]. split; [done|].
    intros input Hin. specialize (Hnone input Hin).
    by destruct (getSyntacticDiagnostics_throws _ _).
  - destruct Hcases as (input & Hin & Hthrown). exists input. split; [done|].
    destruct (getSyntacticDiagnostics_throws _ _); [left|right]; congruence.
Qed.

(** What a call that returns has gone through. *)
Lemma compileProject_inv projectFiles importMap result parked :
  compileProject projectFiles importMap = Js.Ok (result, parked) →
  let inputs := makeInputFiles projectFiles in
  let loaded := (loadInputFiles inputs).1 in
  ∃ program,
    getProgram (hostOf loaded) = Some program ∧
    result =
      {| result_files := (fastPass importMap loaded program inputs).1;
         diagnostics := (fastPass importMap loaded program inputs).2 |} ∧
    parked =
      {| typesFetcher := addLibs (loadInputFiles inputs).2;
         loadedFiles := loaded;
         inputFiles := inputs |} ∧
    (∀ file, file ∈ projectFiles → isTsOrJsFile (name file) = true →
       URL_throws (name file) origin = None) ∧
    getProgram_throws (hostOf loaded) = None ∧
    (∀ input, input ∈ inputs →
       getSyntacticDiagnostics_throws (hostOf loaded) input.2 = None ∧
       emit_throws program (getSourceFile program input.2) (visitor importMap)
         = None).
Proof.
  intros Hcall inputs loaded. unfold compileProject in Hcall.
  pose proof (inputFilesOf_cases projectFiles) as Hinputs.
  destruct (inputFilesOf projectFiles) as [inputs'|]; [|discriminate].
  destruct Hinputs as [-> Hurls]. fold inputs in Hcall. cbn [Js.bind] in Hcall.
  subst loaded. destruct (loadInputFiles inputs) as [loaded fetcher].
  cbn [fst snd].
  pose proof (programOf_cases (hostOf loaded)) as Hprogram.
  destruct (programOf (hostOf loaded)) as [program|]; [|discriminate].
  destruct Hprogram as [Hnothrow Hprogram]. cbn [Js.bind] in Hcall.
  pose proof (fastPassM_cases importMap loaded program inputs) as Hfast.
  destruct (Js.foldlM _ _ _) as [maps|]; [|discriminate].
  destruct Hfast as [-> Hsteps]. cbn [Js.bind] in Hcall.
  exists program. destruct (fastPass importMap loaded program inputs).
  injection Hcall as <- <-. done.
Qed.


(** A call that throws never reaches the async arrow function. *)
Lemma observe_Throw projectFiles importMap message getFiles :
  compileProject projectFiles importMap = Js.Throw message →
  returned (observe projectFiles importMap getFiles) = Js.Throw message ∧
  callbackCalls (observe projectFiles importMap getFiles) = [].
Proof. intros Hcall. unfold observe. by rewrite Hcall. Qed.

Lemma observe_returned projectFiles importMap getFiles :
  returned (observe projectFiles importMap getFiles) =
  match compileProject projectFiles importMap with
  | Js.Ok (result, _) => Js.Ok result
  | Js.Throw message => Js.Throw message
  end.
Proof.
  unfold observe.
  destruct (compileProject projectFiles importMap) as [[result parked]|];
    [|done].
  destruct getFiles; [done| |done]. by destruct (slowPass parked _).
Qed.

(** *** The slow pass, with its throws *)




(** *** The fast pass *)

Lemma elem_of_emitCalls importMap program inputs fileName data :
  (fileName, data) ∈ emitCalls importMap program inputs ↔
  ∃ input, input ∈ inputs ∧
    (fileName, data) ∈ emit program (getSourceFile program input.2)
                            (visitor importMap).
Proof.
  unfold emitCalls. rewrite list_elem_of_In, List.in_concat. split.
  - intros (writes & Hin & Hw). apply List.in_map_iff in Hin as (input & <- & Hin).
    exists input. by rewrite !list_elem_of_In.
  - intros (input & Hin & Hw). eexists. split.
    + apply List.in_map_iff. exists input. split; [done|].
      by apply list_elem_of_In.
    + by apply list_elem_of_In.
Qed.

(** Among the input files an entry of a diagnostics map is decided by the
    file's name alone, because the URL is. *)
Lemma entry_by_name projectFiles (entry : SampleFile * string → string * list Lsp.Diagnostic)
    (byUrl : string → list Lsp.Diagnostic) :
  (∀ input, entry input = (name input.1, byUrl input.2)) →
  ∀ file, file ∈ projectFiles → isTsOrJsFile (name file) = true →
    (list_to_map (reverse (entry <$> makeInputFiles projectFiles))
       : gmap string (list Lsp.Diagnostic)) !! name file
    = Some (byUrl (URL_href (name file) origin)).
Proof.
  intros Hentry file Hin Hts.
  pose (input := (file, URL_href (name file) origin)).
  assert (Hinput : input ∈ makeInputFiles projectFiles).
  { apply elem_of_makeInputFiles. by exists file. }
  pose proof (written_by_key entry (makeInputFiles projectFiles) input) as Hw.
  rewrite (Hentry input) in Hw. cbn [fst snd input] in Hw. apply Hw; [|done].
  intros a1 a2 Ha1 Ha2. rewrite !Hentry. cbn [fst snd].
  apply elem_of_makeInputFiles in Ha1 as (f1 & _ & _ & ->).
  apply elem_of_makeInputFiles in Ha2 as (f2 & _ & _ & ->).
  cbn [fst snd]. by intros ->.
Qed.


(** What a call that returns has computed. *)
Lemma compileProject_returns projectFiles importMap result parked :
  compileProject projectFiles importMap = Js.Ok (result, parked) →
  let inputs := makeInputFiles projectFiles in
  let loaded : gmap string FileRecord :=
    list_to_map (reverse (inputEntry <$> inputs)) in
  ∃ program,
    getProgram (hostOf loaded) = Some program ∧
    result_files result = list_to_map (reverse (emitCalls importMap program inputs)) ∧
    diagnostics result = list_to_map (reverse (fastEntry loaded <$> inputs)) ∧
    loadedFiles parked = loaded ∧
    inputFiles parked = inputs.
Proof.
  intros Hcall inputs loaded.
  destruct (compileProject_inv _ _ _ _ Hcall)
    as (program & Hprogram & -> & -> & _).
  rewrite loadInputFiles_loaded in *. fold inputs loaded in Hprogram |- *.
  exists program. rewrite fastPass_spec. done.
Qed.

Lemma loaded_is_input projectFiles url record :
  (list_to_map (reverse (inputEntry <$> makeInputFiles projectFiles))
     : gmap string FileRecord) !! url = Some record →
  ∃ file, file ∈ projectFiles ∧ isTsOrJsFile (name file) = true ∧
    url = URL_href (name file) origin ∧ record = Resolved None (content file).
Proof.
  intros Hlook.
  apply written_lookup_Some in Hlook as (input & Hin & Hentry).
  apply elem_of_makeInputFiles in Hin as (file & Hin & Hts & ->).
  injection Hentry as <- <-. by exists file.
Qed.

Lemma emitted_is_from_input projectFiles importMap program fileName data :
  (list_to_map (reverse (emitCalls importMap program
                           (makeInputFiles projectFiles)))
     : gmap string string) !! fileName = Some data →
  ∃ file, file ∈ projectFiles ∧ isTsOrJsFile (name file) = true ∧
    (fileName, data) ∈
      emit program (getSourceFile program (URL_href (name file) origin))
           (visitor importMap).
Proof.
  intros Hlook.
  rewrite <- (list_fmap_id (emitCalls _ _ _)) in Hlook.
  apply written_lookup_Some in Hlook as ([k d] & Hw & [= -> ->]).
  apply elem_of_emitCalls in Hw as (input & Hin & Hw).
  apply elem_of_makeInputFiles in Hin as (file & Hin & Hts & ->).
  by exists file.
Qed.

(** In the file map the last input file of a URL is the one read back. *)
Lemma loaded_last_input projectFiles url :
  (list_to_map (reverse (inputEntry <$> makeInputFiles projectFiles))
     : gmap string FileRecord) !! url =
  (λ file, Resolved None (content file)) <$>
    list.last
      (List.filter (λ file, bool_decide (URL_href (name file) origin = url))
         (List.filter (λ file, isTsOrJsFile (name file)) projectFiles)).
Proof.
  rewrite written_last. unfold makeInputFiles.
  rewrite (filter_map_inputs _
             (λ input, bool_decide ((inputEntry input).1 = url))).
  change (List.map ?f ?l) with (f <$> l). rewrite fmap_last.
  cbn [inputEntry fst snd]. by destruct (list.last _).
Qed.


(** C1, amended. When [compileProject] returns, the host the service reads
    holds at every URL the content of the last input file ending in [.ts] or
    [.js] that has this URL, and no file at the URL of no such file; the
    diagnostics map of the result holds, under the name of every such input
    file, the converted syntactic diagnostics the service reports for the
    file's URL, which are those of the file's own content when the last
    input file of that URL has this content; its files map holds what the
    compiler wrote for those files (the last write to a name wins); the file
    map holds records of input files only; and the result is the same
    whatever becomes of the fetch. *)
Theorem compileProject_fast_pass
    (projectFiles : list SampleFile) (importMap : ModuleImportMap)
    (result : CompileResult) (parked : SlowPass) :
  compileProject projectFiles importMap = Js.Ok (result, parked) →
  let host := hostOf (loadedFiles parked) in
  let inputsAt (url : string) :=
    List.filter (λ file, bool_decide (URL_href (name file) origin = url))
      (List.filter (λ file, isTsOrJsFile (name file)) projectFiles) in
  (∀ url,
     readFile host url = content <$> list.last (inputsAt url) ∧
     (fileExists host url = true ↔ inputsAt url ≠ [])) ∧
  (∀ file, file ∈ projectFiles → isTsOrJsFile (name file) = true →
     diagnostics result !! name file =
       Some (makeLspDiagnostic <$>
               getSyntacticDiagnostics host (URL_href (name file) origin)) ∧
     (content <$> list.last (inputsAt (URL_href (name file) origin))
        = Some (content file) →
      readFile host (URL_href (name file) origin) = Some (content file) ∧
      diagnostics result !! name file =
        Some (ownSyntacticDiagnostics (loadedFiles parked) file))) ∧
  (∃ program, getProgram host = Some program ∧
     result_files result =
       list_to_map (reverse (emitCalls importMap program
                               (makeInputFiles projectFiles))) ∧
     (∀ file fileName data,
        file ∈ projectFiles → isTsOrJsFile (name file) = true →
        (fileName, data) ∈
          emit program (getSourceFile program (URL_href (name file) origin))
               (visitor importMap) →
        is_Some (result_files result !! fileName)) ∧
     (∀ fileName data,
        result_files result !! fileName = Some data →
        ∃ file, file ∈ projectFiles ∧ isTsOrJsFile (name file) = true ∧
          (fileName, data) ∈
            emit program (getSourceFile program (URL_href (name file) origin))
                 (visitor importMap))) ∧
  (∀ url record,
     loadedFiles parked !! url = Some record →
     ∃ file, file ∈ projectFiles ∧ isTsOrJsFile (name file) = true ∧
       url = URL_href (name file) origin ∧
       record = Resolved None (content file)) ∧
  (∀ getFiles,
     returned (observe projectFiles importMap getFiles) = Js.Ok result).
Proof.
  intros Hcall host inputsAt.
  destruct (compileProject_returns _ _ _ _ Hcall)
    as (program & Hprogram & Hfiles & Hdiagnostics & Hloaded & _).
  assert (Hrecord : ∀ url, loadedFiles parked !! url =
            (λ file, Resolved None (content file)) <$>
              list.last (inputsAt url)).
  { intros url. rewrite Hloaded. apply loaded_last_input. }
  assert (Hread : ∀ url,
            readFile host url = content <$> list.last (inputsAt url)).
  { intros url. subst host. unfold readFile. cbn [files hostOf].
    rewrite Hrecord. by destruct (list.last (inputsAt url)). }
  assert (Hentry : ∀ file, file ∈ projectFiles →
            isTsOrJsFile (name file) = true →
            diagnostics result !! name file =
              Some (makeLspDiagnostic <$>
                      getSyntacticDiagnostics host
                        (URL_href (name file) origin))).
  { intros file Hin Hts. subst host. rewrite Hdiagnostics, Hloaded.
    by apply (entry_by_name projectFiles (fastEntry _)
                (λ url, makeLspDiagnostic <$> getSyntacticDiagnostics _ url)). }
  split; [|split; [|split; [|split]]].
  - intros url. split; [apply Hread|].
    subst host. unfold fileExists. cbn [files hostOf]. rewrite Hrecord.
    destruct (list.last (inputsAt url)) as [file|] eqn:Hlast; cbn.
    + split; [|done]. intros _ Hnil. by rewrite Hnil in Hlast.
    + apply last_None in Hlast. by rewrite Hlast.
  - intros file Hin Hts. split; [by apply Hentry|].
    intros Hlast. split; [by rewrite Hread|].
    rewrite (Hentry file Hin Hts). unfold ownSyntacticDiagnostics.
    subst host. rewrite insert_id; [done|].
    rewrite Hrecord.
    destruct (list.last (inputsAt (URL_href (name file) origin)))
      as [other|]; [|discriminate].
    cbn in Hlast |- *. by injection Hlast as ->.
  - rewrite Hfiles. subst host. rewrite Hloaded.
    exists program. split; [exact Hprogram|]. split; [reflexivity|]. split.
    + intros file fileName data Hin Hts Hw.
      rewrite <- (list_fmap_id (emitCalls _ _ _)).
      apply (written_is_Some id _ (fileName, data)).
      rewrite elem_of_emitCalls. exists (file, URL_href (name file) origin).
      split; [|done]. apply elem_of_makeInputFiles. by exists file.
    + apply emitted_is_from_input.
  - rewrite Hloaded. apply loaded_is_input.
  - intros getFiles. by rewrite observe_returned, Hcall.
Qed.

(** *** The slow pass *)


(** *** Files that are neither TypeScript nor JavaScript *)


End Compile.

(** *** The statements on a two-file project *)

(** C1, counterexample. Two input files, [a.ts] and [./a.ts], have one
    URL. The file map holds the content of the second, so the entry under
    the name of the first holds the diagnostics of the text of the second,
    not of its own. *)
Lemma fast_pass_counterexample :
  ¬ @fastPassAsSpecified _ Toy.quotingService Toy.normalisingGlobal
      Toy.moduleResolution Toy.twoNames tt.
Proof.
  intros Hspec.
  destruct (@compileProject _ Toy.quotingService Toy.normalisingGlobal
              Toy.moduleResolution Toy.twoNames tt)
    as [[result parked]|message] eqn:Hcall.
  - pose proof (Hspec result parked Hcall
                  {| name := "a.ts"; content := "let a = 1;";
                     contentType := None |}
                  (list_elem_of_here _ _) eq_refl) as Hentry.
    vm_compute in Hcall. injection Hcall as <- <-.
    vm_compute in Hentry. discriminate Hentry.
  - vm_compute in Hcall. discriminate Hcall.
Qed.

Lemma compileProject_fast_pass_witness :
  match @compileProject _ Toy.quotingService Toy.normalisingGlobal
          Toy.moduleResolution Toy.twoNames tt with
  | Js.Ok (result, parked) =>
    readFile (@hostOf Toy.normalisingGlobal (loadedFiles parked))
      "https://playground.test/a.ts" = Some "let a = 2;" ∧
    diagnostics result !! "./a.ts" =
      Some (@ownSyntacticDiagnostics _ Toy.quotingService
              Toy.normalisingGlobal (loadedFiles parked)
              {| name := "./a.ts"; content := "let a = 2;";
                 contentType := None |}) ∧
    returned (@observe _ Toy.quotingService Toy.normalisingGlobal
                Toy.moduleResolution Toy.twoNames tt Rejected)
      = Js.Ok result
  | Js.Throw _ => False
  end.
Proof.
  destruct (@compileProject _ Toy.quotingService Toy.normalisingGlobal
              Toy.moduleResolution Toy.twoNames tt)
    as [[result parked]|message] eqn:Hcall.
  - pose proof (@compileProject_fast_pass _ Toy.quotingService
                  Toy.normalisingGlobal Toy.moduleResolution
                  Toy.twoNames tt result parked Hcall)
      as (Hhost & Hdiagnostics & _ & _ & Hreturned).
    split; [|split].
    + apply (proj1 (Hhost "https://playground.test/a.ts")).
    + apply (Hdiagnostics
               {| name := "./a.ts"; content := "let a = 2;";
                  contentType := None |}).
      * apply list_elem_of_further, list_elem_of_here.
      * reflexivity.
      * reflexivity.
    + apply Hreturned.
  - vm_compute in Hcall. discriminate Hcall.
Defined.



End CompileFacts.

(** ** The tab bar *)

Module TabBarFacts.
Import TabBar.

Lemma active_with_idx i (tab : ref) (elements : ref → VanillaTab) other :
  active (alter (with_idx i) tab elements other) = active (elements other).
Proof.
  destruct (decide (tab = other)) as [->|Hne].
  - by rewrite fn_lookup_alter.
  - by rewrite fn_lookup_alter_ne.
Qed.

(** *** The setter *)

Lemma set_active_same s tab : _active s = tab → set_active tab s = s.
Proof. intros Hsame. unfold set_active. by rewrite decide_True. Qed.

Lemma set_active_other s tab :
  _active s ≠ Some tab →
  let s' := set_active (Some tab) s in
  _active s' = Some tab ∧
  _tabs s' = _tabs s ∧
  active (tabs s' tab) = true ∧
  (∀ previous, _active s = Some previous → active (tabs s' previous) = false) ∧
  (∀ other, other ≠ tab → _active s ≠ Some other → tabs s' other = tabs s other).
Proof.
  intros Hne. unfold set_active. rewrite decide_False by done.
  destruct (_active s) as [previous|] eqn:Hprevious; cbn.
  - assert (previous ≠ tab) by congruence.
    split; [done|]. split; [done|]. split; [by rewrite fn_lookup_alter|].
    split.
    + intros ? [= <-]. rewrite fn_lookup_alter_ne by done.
      by rewrite fn_lookup_alter.
    + intros other Hother Hprev.
      rewrite !fn_lookup_alter_ne by congruence. done.
  - split; [done|]. split; [done|]. split; [by rewrite fn_lookup_alter|].
    split; [done|].
    intros other Hother _. by rewrite fn_lookup_alter_ne.
Qed.

Lemma set_active_keeps_one_active s tab :
  atMostOneActive s → atMostOneActive (set_active (Some tab) s).
Proof.
  intros Hone. destruct (decide (_active s = Some tab)) as [Hsame|Hne].
  { by rewrite set_active_same. }
  destruct (set_active_other s tab Hne) as (Hactive & Htabs & _ & Hprev & Hother).
  intros other Hin Hon. rewrite Hactive. f_equal.
  destruct (decide (other = tab)) as [->|Hneq]; [done|].
  rewrite Htabs in Hin.
  destruct (decide (_active s = Some other)) as [Hwas|Hwasnot].
  - rewrite (Hprev other Hwas) in Hon. discriminate.
  - rewrite (Hother other Hneq Hwasnot) in Hon.
    by destruct Hwasnot; apply Hone.
Qed.

(** *** The slot change *)

Lemma firstActiveAt_nil (elements : ref → VanillaTab) i tab : ¬ firstActiveAt elements [] i tab.
Proof. by intros [Hlook _]. Qed.

Lemma firstActiveAt_head (elements : ref → VanillaTab) tab rest :
  active (elements tab) = true →
  ∀ i other, firstActiveAt elements (tab :: rest) i other ↔ i = 0%nat ∧ other = tab.
Proof.
  intros Hon i other. split.
  - intros (Hlook & _ & Hfirst). destruct i as [|i].
    + by injection Hlook as <-.
    + rewrite (Hfirst 0%nat tab) in Hon; [discriminate|lia|done].
  - intros [-> ->]. split; [done|]. split; [done|]. intros; lia.
Qed.

Lemma firstActiveAt_tail (elements elements' : ref → VanillaTab) tab rest :
  active (elements tab) = false →
  (∀ other, active (elements' other) = active (elements other)) →
  ∀ i other,
    firstActiveAt elements (tab :: rest) i other ↔
    ∃ j, i = S j ∧ firstActiveAt elements' rest j other.
Proof.
  intros Hoff Hsame i other. split.
  - intros (Hlook & Hon & Hfirst). destruct i as [|j].
    + injection Hlook as <-. congruence.
    + exists j. split; [done|]. split; [done|]. split; [by rewrite Hsame|].
      intros j' tab' Hlt Hlook'. rewrite Hsame.
      apply (Hfirst (S j')); [lia|done].
  - intros (j & -> & Hlook & Hon & Hfirst).
    split; [done|]. split; [by rewrite <- Hsame|].
    intros [|j'] tab' Hlt Hlook'.
    + by injection Hlook' as <-.
    + rewrite <- Hsame. apply (Hfirst j'); [lia|done].
Qed.

(** What the loop leaves behind, for tabs that are all different: the tabs
    not visited are as before; a visited tab has its position as [idx], and
    is active exactly when no tab was current at the start and it is the
    first visited tab that was active. *)
Lemma slotchangeLoop_spec (rest : list ref) :
  NoDup rest →
  ∀ i (elements : ref → VanillaTab) current elements' current',
    slotchangeLoop i rest elements current = (elements', current') →
    (∀ tab, tab ∉ rest → elements' tab = elements tab) ∧
    (∀ j tab, rest !! j = Some tab →
       idx (elements' tab) = (i + j)%nat ∧
       (active (elements' tab) = true ↔
          current = None ∧ firstActiveAt elements rest j tab)) ∧
    match current with
    | Some _ => current' = current
    | None => ∀ tab, current' = Some tab ↔ ∃ j, firstActiveAt elements rest j tab
    end.
Proof.
  induction 1 as [|tab rest Hfresh Hnodup IH];
    intros i elements current elements' current' Hloop.
  - injection Hloop as <- <-. split; [done|]. split; [done|].
    destruct current; [done|]. intros tab. split; [done|].
    intros [j Hj]. by apply firstActiveAt_nil in Hj.
  - cbn [slotchangeLoop] in Hloop.
    pose proof (active_with_idx i tab elements) as Hsame.
    assert (Hothers : ∀ other, other ≠ tab →
              alter (with_idx i) tab elements other = elements other).
    { intros other Hne. by rewrite fn_lookup_alter_ne. }
    destruct current as [current|].
    + apply IH in Hloop as (Hout & Hin & ->).
      split; [|split; [|done]].
      * intros other Hother. apply not_elem_of_cons in Hother as [Hne Hother].
        rewrite (Hout other Hother), fn_lookup_alter_ne by done.
        by apply Hothers.
      * intros [|j] other Hlook.
        -- injection Hlook as <-. rewrite (Hout tab Hfresh), !fn_lookup_alter.
           cbn. split; [lia|]. split; [done|]. by intros [? _].
        -- destruct (Hin j other Hlook) as [Hidx Hactive].
           split; [lia|]. rewrite Hactive. split; by intros [? _].
    + rewrite Hsame in Hloop.
      destruct (active (elements tab)) eqn:Hon.
      * apply IH in Hloop as (Hout & Hin & ->).
        split; [|split].
        -- intros other Hother. apply not_elem_of_cons in Hother as [Hne Hother].
           rewrite (Hout other Hother). by apply Hothers.
        -- intros j other Hlook.
           rewrite (firstActiveAt_head elements tab rest Hon).
           destruct j as [|j].
           ++ injection Hlook as <-. rewrite (Hout tab Hfresh), fn_lookup_alter.
              cbn. split; [lia|]. by rewrite Hon.
           ++ destruct (Hin j other Hlook) as [Hidx Hactive].
              split; [lia|]. rewrite Hactive.
              split; [by intros [? _]|]. by intros [_ [? _]].
        -- intros other. split.
           ++ intros [= <-]. exists 0%nat.
              by apply (firstActiveAt_head elements tab rest Hon).
           ++ intros [j Hj].
              apply (firstActiveAt_head elements tab rest Hon) in Hj as [_ ->].
              done.
      * apply IH in Hloop as (Hout & Hin & Hcurrent).
        pose proof (firstActiveAt_tail elements _ tab rest Hon Hsame) as Htail.
        split; [|split].
        -- intros other Hother. apply not_elem_of_cons in Hother as [Hne Hother].
           rewrite (Hout other Hother). by apply Hothers.
        -- intros [|j] other Hlook.
           ++ injection Hlook as <-. rewrite (Hout tab Hfresh), fn_lookup_alter.
              cbn. split; [lia|]. rewrite Hon. split; [done|].
              intros [_ (_ & Hactive & _)]. congruence.
           ++ destruct (Hin j other Hlook) as [Hidx Hactive].
              split; [lia|]. rewrite Hactive, Htail. split.
              ** intros [_ Hfirst]. split; [done|]. by exists j.
              ** intros [_ (j' & [= <-] & Hfirst)]. done.
        -- intros other. rewrite Hcurrent. split.
           ++ intros [j Hj]. exists (S j). apply Htail. by exists j.
           ++ intros [j Hj]. apply Htail in Hj as (j' & _ & Hj'). by exists j'.
Qed.

Lemma _onSlotchange_spec s assigned :
  NoDup assigned →
  let s' := _onSlotchange assigned s in
  _tabs s' = assigned ∧
  (∀ i tab, assigned !! i = Some tab → idx (tabs s' tab) = i) ∧
  (∀ i tab, assigned !! i = Some tab →
     (active (tabs s' tab) = true ↔ firstActiveAt (tabs s) assigned i tab)) ∧
  (∀ tab, _active s' = Some tab ↔ ∃ i, firstActiveAt (tabs s) assigned i tab) ∧
  (∀ tab, tab ∉ assigned → tabs s' tab = tabs s tab).
Proof.
  intros Hnodup. unfold _onSlotchange.
  destruct (slotchangeLoop 0 assigned (tabs s) None) as [elements current] eqn:Hloop.
  apply (slotchangeLoop_spec _ Hnodup) in Hloop as (Hout & Hin & Hcurrent).
  cbn. split; [done|]. split; [|split; [|split; [done|done]]].
  - intros i tab Hlook. by destruct (Hin i tab Hlook) as [-> _].
  - intros i tab Hlook. destruct (Hin i tab Hlook) as [_ ->].
    split; [by intros [_ ?]|done].
Qed.

(** C5. Assigning the tab already held does nothing; assigning another tab
    makes the previously active tab inactive and the new one active, and
    keeps the bar's tabs at no more than one active tab. After a slot change
    over distinct elements each tab's [idx] is its position, a tab is active
    exactly when it was the first active one of the new list, that tab is
    the one the bar holds, and so at most one tab is active. *)
Theorem tab_bar_keeps_one_active :
  (∀ s tab, _active s = Some tab → set_active (Some tab) s = s) ∧
  (∀ s tab, _active s ≠ Some tab →
     let s' := set_active (Some tab) s in
     _active s' = Some tab ∧
     active (tabs s' tab) = true ∧
     (∀ previous, _active s = Some previous →
        active (tabs s' previous) = false) ∧
     (∀ other, other ≠ tab → _active s ≠ Some other →
        tabs s' other = tabs s other)) ∧
  (∀ s tab, atMostOneActive s → atMostOneActive (set_active (Some tab) s)) ∧
  (∀ s assigned, NoDup assigned →
     let s' := _onSlotchange assigned s in
     _tabs s' = assigned ∧
     (∀ i tab, assigned !! i = Some tab → idx (tabs s' tab) = i) ∧
     (∀ i tab, assigned !! i = Some tab →
        (active (tabs s' tab) = true ↔
           firstActiveAt (tabs s) assigned i tab)) ∧
     (∀ tab, _active s' = Some tab ↔
        ∃ i, firstActiveAt (tabs s) assigned i tab) ∧
     atMostOneActive s').
Proof.
  split; [intros s tab; apply set_active_same|].
  split.
  { intros s tab Hne.
    destruct (set_active_other s tab Hne) as (? & ? & ? & ? & ?). done. }
  split; [apply set_active_keeps_one_active|].
  intros s assigned Hnodup.
  destruct (_onSlotchange_spec s assigned Hnodup)
    as (Htabs & Hidx & Hactive & Hcurrent & _).
  split; [done|]. split; [done|]. split; [done|]. split; [done|].
  intros tab Hin Hon. rewrite Htabs in Hin.
  apply list_elem_of_lookup in Hin as [i Hlook].
  apply Hcurrent. exists i. by apply Hactive.
Qed.

Lemma tab_bar_keeps_one_active_witness :
  let s :=
    {| tabs := λ tab, {| active := (1 <=? tab)%nat; idx := 9 |};
       _tabs := [];
       _active := Some 5%nat;
       focused := None;
       dispatched := [] |} in
  let s' := _onSlotchange [0; 1; 2]%nat s in
  set_active (Some 5%nat) s = s ∧
  active (tabs (set_active (Some 1%nat) s) 5%nat) = false ∧
  idx (tabs s' 2%nat) = 2%nat ∧
  _active s' = Some 1%nat ∧
  atMostOneActive s'.
Proof.
  intros s s'.
  destruct tab_bar_keeps_one_active as (Hsame & Hother & _ & Hslot).
  assert (Hdistinct : NoDup [0; 1; 2]%nat).
  { apply NoDup_cons_2.
    - rewrite !elem_of_cons, elem_of_nil. intros [?|[?|[]]]; discriminate.
    - apply NoDup_cons_2; [|apply NoDup_cons_2; [|apply NoDup_nil_2]].
      + rewrite elem_of_cons, elem_of_nil. intros [?|[]]; discriminate.
      + apply not_elem_of_nil. }
  destruct (Hslot s [0; 1; 2]%nat Hdistinct) as (_ & Hidx & _ & Hcurrent & Hone).
  split; [apply Hsame; reflexivity|].
  split.
  { assert (Hne : _active s ≠ Some 1%nat) by discriminate.
    destruct (Hother s 1%nat Hne) as (_ & _ & Hprevious & _).
    apply Hprevious. reflexivity. }
  split; [apply (Hidx 2%nat); reflexivity|].
  split; [|exact Hone].
  apply Hcurrent. exists 1%nat.
  split; [reflexivity|]. split; [reflexivity|].
  intros [|j] other Hlt Hlook; [|lia].
  injection Hlook as <-. reflexivity.
Defined.

(** *** Arrow keys *)

Lemma _onKeydown_unfold key s :
  _onKeydown key s =
  let oldIdx := oldIdxOf s in
  let newIdx :=
    if String.eqb key "ArrowLeft" then
      if (0 <? oldIdx)%Z then (oldIdx - 1)%Z else oldIdx
    else if String.eqb key "ArrowRight" then
      if (oldIdx <? Z.of_nat (List.length (_tabs s)) - 1)%Z
      then (oldIdx + 1)%Z else oldIdx
    else oldIdx in
  if (newIdx =? oldIdx)%Z then Js.Ok s
  else match tabAt s newIdx with
       | Some tab => Js.Ok (activatedAndFocused tab s)
       | None => Js.Throw "TypeError: cannot set properties of undefined"
       end.
Proof. reflexivity. Qed.

Lemma oldIdxOf_nonneg s : (0 ≤ oldIdxOf s)%Z.
Proof. unfold oldIdxOf. destruct (_active s); lia. Qed.

Lemma tabAt_in_range s i :
  (0 ≤ i < Z.of_nat (List.length (_tabs s)))%Z → is_Some (tabAt s i).
Proof.
  intros Hrange. unfold tabAt.
  destruct (Z.ltb_spec i 0); [lia|].
  apply lookup_lt_is_Some. lia.
Qed.

(** C6. A state in which [_onKeydown] does not do what the specification
    says of ArrowLeft. The bar has one tab, 0; tab 1 sits at position 2 of
    some other bar and is made the active tab of this one through the
    setter. Then [oldIdx] is 2 and [this._tabs[1]] is undefined: the handler
    neither activates a tab nor leaves the bar as it is, it throws a
    [TypeError]. ArrowRight is bounded by the number of tabs; ArrowLeft is
    only bounded by 0. *)
Lemma keydown_ArrowLeft_counterexample :
  let initial :=
    {| tabs := λ tab, {| active := false;
                         idx := if (tab =? 1)%nat then 2%nat else 0%nat |};
       _tabs := [];
       _active := None;
       focused := None;
       dispatched := [] |} in
  let s := set_active (Some 1%nat) (_onSlotchange [0%nat] initial) in
  ¬ keydownAsSpecified "ArrowLeft" s ∧
  oldIdxOf s = 2%Z ∧
  _onKeydown "ArrowLeft" s =
    Js.Throw "TypeError: cannot set properties of undefined".
Proof.
  intros initial s. split; [|split; reflexivity].
  intros (Hleft & _).
  destruct (Hleft eq_refl) as [Hmoves _].
  destruct Hmoves as (tab & Hat & _); [reflexivity|].
  vm_compute in Hat. discriminate Hat.
Qed.

(** What [_onKeydown] does as it is written. With [oldIdx] the [idx] of the
    active tab (0 when there is none) and [n] the number of tabs: ArrowLeft
    activates and focuses the tab
    at [oldIdx - 1] when [0 < oldIdx <= n] and changes nothing when
    [oldIdx = 0]; ArrowRight activates and focuses the tab at [oldIdx + 1]
    when [oldIdx < n - 1] and changes nothing otherwise; any other key
    changes nothing. *)
Theorem keydown_moves_to_neighbour (key : string) (s : State) :
  let oldIdx := oldIdxOf s in
  let n := Z.of_nat (List.length (_tabs s)) in
  (key = "ArrowLeft" →
     ((0 < oldIdx ≤ n)%Z →
        ∃ tab, tabAt s (oldIdx - 1) = Some tab ∧
               _onKeydown key s = Js.Ok (activatedAndFocused tab s)) ∧
     ((oldIdx ≤ 0)%Z → _onKeydown key s = Js.Ok s)) ∧
  (key = "ArrowRight" →
     ((oldIdx < n - 1)%Z →
        ∃ tab, tabAt s (oldIdx + 1) = Some tab ∧
               _onKeydown key s = Js.Ok (activatedAndFocused tab s)) ∧
     ((n - 1 ≤ oldIdx)%Z → _onKeydown key s = Js.Ok s)) ∧
  (key ≠ "ArrowLeft" → key ≠ "ArrowRight" → _onKeydown key s = Js.Ok s).
Proof.
  intros oldIdx n. rewrite _onKeydown_unfold. fold oldIdx. cbn zeta. fold n.
  pose proof (oldIdxOf_nonneg s) as Hnonneg. fold oldIdx in Hnonneg.
  split; [|split].
  - intros ->. cbn [String.eqb Ascii.eqb Bool.eqb]. split.
    + intros Hrange. destruct (Z.ltb_spec 0 oldIdx); [|lia].
      destruct (Z.eqb_spec (oldIdx - 1) oldIdx); [lia|].
      destruct (tabAt_in_range s (oldIdx - 1)) as [tab Htab]; [fold n; lia|].
      exists tab. by rewrite Htab.
    + intros Hzero. destruct (Z.ltb_spec 0 oldIdx); [lia|].
      by rewrite Z.eqb_refl.
  - intros ->. cbn [String.eqb Ascii.eqb Bool.eqb]. split.
    + intros Hrange. destruct (Z.ltb_spec oldIdx (n - 1)); [|lia].
      destruct (Z.eqb_spec (oldIdx + 1) oldIdx); [lia|].
      destruct (tabAt_in_range s (oldIdx + 1)) as [tab Htab]; [fold n; lia|].
      exists tab. by rewrite Htab.
    + intros Hlast. destruct (Z.ltb_spec oldIdx (n - 1)); [lia|].
      by rewrite Z.eqb_refl.
  - intros Hleft Hright.
    destruct (String.eqb_spec key "ArrowLeft"); [done|].
    destruct (String.eqb_spec key "ArrowRight"); [done|].
    by rewrite Z.eqb_refl.
Qed.

Lemma keydown_moves_to_neighbour_witness :
  let s :=
    {| tabs := λ tab, {| active := (tab =? 11)%nat; idx := tab - 10 |};
       _tabs := [10; 11; 12]%nat;
       _active := Some 11%nat;
       focused := None;
       dispatched := [] |} in
  _onKeydown "ArrowLeft" s = Js.Ok (activatedAndFocused 10%nat s) ∧
  _onKeydown "ArrowRight" s = Js.Ok (activatedAndFocused 12%nat s) ∧
  _onKeydown "Enter" s = Js.Ok s.
Proof.
  intros s.
  pose proof (keydown_moves_to_neighbour "ArrowLeft" s) as (Hleft & _ & _).
  pose proof (keydown_moves_to_neighbour "ArrowRight" s) as (_ & Hright & _).
  pose proof (keydown_moves_to_neighbour "Enter" s) as (_ & _ & Hother).
  split; [|split].
  - destruct (Hleft eq_refl) as [Hmoves _].
    destruct Hmoves as (tab & Hat & Hkey);
      [vm_compute; split; [reflexivity|discriminate]|].
    vm_compute in Hat. injection Hat as <-. exact Hkey.
  - destruct (Hright eq_refl) as [Hmoves _].
    destruct Hmoves as (tab & Hat & Hkey); [vm_compute; reflexivity|].
    vm_compute in Hat. injection Hat as <-. exact Hkey.
  - apply Hother; discriminate.
Defined.

End TabBarFacts.

(** ** The file editor: mime types *)

Module FileEditorFacts.
Import FileEditor.

Lemma index_semicolon_cons c rest :
  index 0 ";" (String c rest) =
  if Ascii.eqb c ";" then Some 0%nat
  else match index 0 ";" rest with Some n => Some (S n) | None => None end.
Proof.
  cbn [index]. cbn [String.prefix].
  destruct (ascii_dec ";" c) as [<-|Hne].
  - destruct rest; reflexivity.
  - destruct (Ascii.eqb_spec c ";") as [->|_]; [congruence|reflexivity].
Qed.

Lemma strip_no_semicolon m :
  index 0 ";" m = None → stripParameters m = m.
Proof.
  induction m as [|c rest IH]; [reflexivity|].
  rewrite index_semicolon_cons. cbn [stripParameters].
  destruct (Ascii.eqb c ";"); [discriminate|].
  destruct (index 0 ";" rest); [discriminate|].
  intros _. by rewrite IH.
Qed.

Lemma strip_semicolon m : ∀ i,
  index 0 ";" m = Some i → substring 0 i m = stripParameters m.
Proof.
  induction m as [|c rest IH]; intros i.
  - cbn. discriminate.
  - rewrite index_semicolon_cons. cbn [stripParameters].
    destruct (Ascii.eqb c ";").
    + intros [= <-]. reflexivity.
    + destruct (index 0 ";" rest) as [n|]; [|discriminate].
      intros [= <-]. cbn [substring]. by rewrite (IH n).
Qed.

(** The code's prefix computation is the specification's stripping. *)
Lemma stripped_prefix m :
  match Js.indexOf m ";" with
  | Some i => Js.substring0 m i
  | None => m
  end = stripParameters m.
Proof.
  unfold Js.indexOf, Js.substring0.
  destruct (index 0 ";" m) as [i|] eqn:E.
  - by apply strip_semicolon.
  - symmetry. by apply strip_no_semicolon.
Qed.

Lemma mimeTypeToTypeEnum_stripped m :
  mimeTypeToTypeEnum (Some m) =
  snd <$> List.find (λ e, String.eqb (stripParameters m) (fst e)) knownMimeTypes.
Proof.
  unfold mimeTypeToTypeEnum. rewrite stripped_prefix.
  cbn [List.find knownMimeTypes fst snd].
  repeat (destruct (String.eqb (stripParameters m) _); [reflexivity|]).
  reflexivity.
Qed.

(** C10. [mimeTypeToTypeEnum] is [undefined] on [undefined]; otherwise it
    drops everything from the first [;] on and maps the remainder:
    [video/mp2t] to [ts], [text/javascript] and [application/javascript]
    to [js], [application/json] to [json], [text/html] to [html],
    [text/css] to [css], and every other string to [undefined]. *)
Theorem mimeTypeToTypeEnum_table :
  mimeTypeToTypeEnum None = None ∧
  ∀ m : string,
    let s := stripParameters m in
    (s = "video/mp2t" → mimeTypeToTypeEnum (Some m) = Some ts) ∧
    (s = "text/javascript" ∨ s = "application/javascript" →
       mimeTypeToTypeEnum (Some m) = Some js) ∧
    (s = "application/json" → mimeTypeToTypeEnum (Some m) = Some json) ∧
    (s = "text/html" → mimeTypeToTypeEnum (Some m) = Some html) ∧
    (s = "text/css" → mimeTypeToTypeEnum (Some m) = Some css) ∧
    (s ∉ ["video/mp2t"; "text/javascript"; "application/javascript";
          "application/json"; "text/html"; "text/css"] →
       mimeTypeToTypeEnum (Some m) = None).
Proof.
  split; [reflexivity|].
  intros m s. rewrite mimeTypeToTypeEnum_stripped. fold s.
  repeat split.
  - intros ->. reflexivity.
  - intros [-> | ->]; reflexivity.
  - intros ->. reflexivity.
  - intros ->. reflexivity.
  - intros ->. reflexivity.
  - intros Hnot. cbn [List.find knownMimeTypes fst snd].
    repeat match goal with
    | |- context [String.eqb s ?k] =>
      destruct (String.eqb_spec s k) as [Heq|_];
      [exfalso; apply Hnot; rewrite Heq; set_solver|]
    end.
    reflexivity.
Qed.

Lemma mimeTypeToTypeEnum_table_witness :
  mimeTypeToTypeEnum (Some "text/javascript; charset=utf-8") = Some js ∧
  mimeTypeToTypeEnum (Some "video/mp2t") = Some ts ∧
  mimeTypeToTypeEnum (Some "application/json;q=1;x") = Some json ∧
  mimeTypeToTypeEnum (Some "text/html;") = Some html ∧
  mimeTypeToTypeEnum (Some "text/css") = Some css ∧
  mimeTypeToTypeEnum (Some "text/plain;text/css") = None.
Proof.
  pose proof (proj2 mimeTypeToTypeEnum_table) as H.
  split; [|split; [|split; [|split; [|split]]]].
  - apply (H "text/javascript; charset=utf-8"). left. reflexivity.
  - apply (H "video/mp2t"). reflexivity.
  - apply (H "application/json;q=1;x"). reflexivity.
  - apply (H "text/html;"). reflexivity.
  - apply (H "text/css"). reflexivity.
  - apply (H "text/plain;text/css"). vm_compute.
    intros Hin. repeat (apply elem_of_cons in Hin as [Hin|Hin]; [discriminate|]).
    by apply elem_of_nil in Hin.
Defined.

End FileEditorFacts.

(** ** The file editor: binding to the project *)

Module EditorFacts.
Import FileEditor.

Lemma list_find_by_name filename (l : list SampleFile) :
  match list_find (λ file : SampleFile, name file = filename) l with
  | Some (_, file) => Some file
  | None => None
  end = List.find (λ file, String.eqb (name file) filename) l.
Proof.
  induction l as [|file l IH]; [reflexivity|].
  cbn. destruct (decide (name file = filename)) as [Heq|Hne];
    destruct (String.eqb_spec (name file) filename); try done.
  rewrite <- IH.
  by destruct (list_find (λ file : SampleFile, name file = filename) l) as [[]|].
Qed.

Lemma _currentFile_unset this :
  filename this = None ∨ filename this = Some "" → _currentFileAt this = None.
Proof. unfold _currentFileAt. by intros [-> | ->]. Qed.

Lemma _currentFileAt_Some this i file :
  _currentFileAt this = Some (i, file) →
  filename this = Some (name file) ∧ name file ≠ "" ∧
  _files this !! i = Some file ∧
  ∀ j other, _files this !! j = Some other → (j < i)%nat →
             name other ≠ name file.
Proof.
  unfold _currentFileAt. destruct (filename this) as [fn|]; [|done].
  unfold truthy. destruct (String.eqb_spec fn ""); [done|]. cbn [negb].
  intros (Hlook & Hname & Hfirst)%list_find_Some. subst fn. done.
Qed.

Lemma _files_of_project this file i :
  _files this !! i = Some file →
  ∃ project l, _project this = Some project ∧ files project = Some l ∧
               l !! i = Some file.
Proof.
  unfold _files. destruct (_project this) as [project|].
  - destruct (files project) as [l|] eqn:Hfiles; cbn.
    + intros Hlook. by exists project, l.
    + intros Hlook. by rewrite lookup_nil in Hlook.
  - intros Hlook. by rewrite lookup_nil in Hlook.
Qed.

(** The file editor in which the claim of the specification fails: the
    project has a file with the empty name, and [filename] is the empty
    string. *)
Lemma editor_value_counterexample :
  let this :=
    {| _project :=
         Some {| files := Some [ {| name := ""; content := "x";
                                    contentType := None |} ];
                 diagnostics := None;
                 saveDebouncedCalls := 0 |};
       filename := Some "";
       lineNumbers := false;
       pragmas := on;
       readonly := false;
       _editor_value := "" |} in
  valueByName this = "x" ∧ prop_value (render this) ≠ valueByName this.
Proof. split; [reflexivity|discriminate]. Qed.

(** C7, amended. For a [filename] that is set and not the empty string the
    editor's value is the content of the first project file of that name,
    the empty string when there is none; for an unset or empty [filename] it
    is the empty string. With a current file the diagnostics are the
    project's for that file's name, without one those for the empty name.
    An edit with a current file writes the editor's value into that file's
    content, leaves the other files as they are and asks for one debounced
    save; without a current file it changes nothing. *)
Theorem file_editor_binds_by_name (this : PlaygroundFileEditor) :
  (∀ fn, filename this = Some fn → fn ≠ "" →
     prop_value (render this) = valueByName this) ∧
  (filename this = None ∨ filename this = Some "" →
     prop_value (render this) = "" ∧ _currentFile this = None) ∧
  (∀ file, _currentFile this = Some file →
     filename this = Some (name file) ∧
     prop_value (render this) = content file ∧
     prop_diagnostics (render this) = projectDiagnostics this (name file)) ∧
  (_currentFile this = None →
     prop_diagnostics (render this) = projectDiagnostics this "") ∧
  (∀ i file, _currentFileAt this = Some (i, file) →
     ∃ project l project' l',
       _project this = Some project ∧ files project = Some l ∧
       l !! i = Some file ∧
       _project (_onEdit this) = Some project' ∧ files project' = Some l' ∧
       l' !! i = Some (with_content (_editor_value this) file) ∧
       (∀ j, j ≠ i → l' !! j = l !! j) ∧
       List.length l' = List.length l ∧
       diagnostics project' = diagnostics project ∧
       saveDebouncedCalls project' = S (saveDebouncedCalls project) ∧
       filename (_onEdit this) = filename this) ∧
  (_currentFile this = None → _onEdit this = this).
Proof.
  split; [|split; [|split; [|split; [|split]]]].
  - intros fn Hfn Hne. unfold render, valueByName, _currentFile, _currentFileAt.
    cbn [prop_value]. rewrite Hfn. unfold truthy.
    destruct (String.eqb_spec fn ""); [done|]. cbn [negb].
    rewrite <- list_find_by_name.
    by destruct (list_find _ _) as [[]|].
  - intros Hunset. unfold render, _currentFile. cbn [prop_value].
    by rewrite (_currentFile_unset this Hunset).
  - intros file. unfold render, _currentFile. cbn [prop_value prop_diagnostics].
    destruct (_currentFileAt this) as [[i file']|] eqn:Hat; [|done].
    intros [= ->]. by destruct (_currentFileAt_Some this i file Hat) as (-> & _).
  - unfold render. cbn [prop_diagnostics]. by intros ->.
  - intros i file Hat.
    destruct (_currentFileAt_Some this i file Hat) as (_ & _ & Hlook & _).
    destruct (_files_of_project this file i Hlook) as (project & l & Hp & Hl & Hi).
    unfold _onEdit. rewrite Hat, Hp, Hl. cbn.
    eexists project, l, _, _. split; [done|]. split; [done|]. split; [done|].
    split; [reflexivity|]. split; [reflexivity|].
    split; [by rewrite list_lookup_alter_eq, Hi|].
    split; [by intros j Hj; rewrite list_lookup_alter_ne|].
    split; [by rewrite length_alter|]. done.
  - unfold _currentFile, _onEdit.
    by destruct (_currentFileAt this) as [[i file]|].
Qed.

Lemma file_editor_binds_by_name_witness :
  let this :=
    {| _project :=
         Some {| files := Some [Toy.indexTs; Toy.styleCss];
                 diagnostics := Some ∅;
                 saveDebouncedCalls := 0 |};
       filename := Some "style.css";
       lineNumbers := false;
       pragmas := on;
       readonly := false;
       _editor_value := "p { color: blue }" |} in
  prop_value (render this) = valueByName this ∧
  prop_diagnostics (render this) = projectDiagnostics this "style.css" ∧
  ∃ project' l',
    _project (_onEdit this) = Some project' ∧ files project' = Some l' ∧
    l' !! 1%nat = Some (with_content "p { color: blue }" Toy.styleCss) ∧
    l' !! 0%nat = Some Toy.indexTs ∧
    saveDebouncedCalls project' = 1%nat.
Proof.
  intros this.
  destruct (file_editor_binds_by_name this)
    as (Hvalue & _ & Hcurrent & _ & Hedit & _).
  split; [apply (Hvalue "style.css"); [reflexivity|discriminate]|].
  split; [apply (Hcurrent Toy.styleCss); reflexivity|].
  destruct (Hedit 1%nat Toy.styleCss eq_refl)
    as (project & l & project' & l' & Hp & Hl & _ & Hp' & Hl' & Hat & Hrest
        & _ & _ & Hsave & _).
  injection Hp as <-. injection Hl as <-.
  exists project', l'. split; [exact Hp'|]. split; [exact Hl'|].
  split; [exact Hat|]. split; [|exact Hsave].
  apply (Hrest 0%nat). discriminate.
Defined.

End EditorFacts.

(** ** The definitions on small inputs *)

Module Examples.
Import Worker TabBar.

Example isTsOrJsFile_ts : isTsOrJsFile "index.ts" = true.
Proof. reflexivity. Qed.

Example isTsOrJsFile_js : isTsOrJsFile "lib/util.js" = true.
Proof. reflexivity. Qed.

Example isTsOrJsFile_tsx : isTsOrJsFile "index.tsx" = false.
Proof. reflexivity. Qed.

Example isTsOrJsFile_short : isTsOrJsFile "ts" = false.
Proof. reflexivity. Qed.

Example severity_table :
  diagnosticCategoryMapping !! categoryNumber Message = Some 3%Z ∧
  diagnosticCategoryMapping !! 7%Z = None.
Proof. split; reflexivity. Qed.

Example visitor_on_program :
  @visitor Toy.workerGlobal Toy.moduleResolution tt Toy.program =
  OtherNode 0
    [ ImportDeclaration (Some "{html}") "https://unpkg.com/lit?module";
      ImportDeclaration None "./local.js";
      OtherNode 1 [] ].
Proof. reflexivity. Qed.

Example compileProject_on_two_files :
  match @compileProject _ Toy.languageService Toy.workerGlobal
          Toy.moduleResolution [Toy.indexTs; Toy.styleCss] tt with
  | Js.Ok (result, parked) =>
    result_files result !! "https://playground.test/index.ts"
      = Some "import {html} from 'lit';" ∧
    diagnostics result !! "style.css" = None ∧
    typesFetcher parked =
      [BareModuleTypings "import {html} from 'lit';";
       LibTypings "dom"; LibTypings "esnext"]
  | Js.Throw _ => False
  end.
Proof. vm_compute. repeat split. Qed.

Example slotchange_on_three_tabs :
  let s :=
    {| tabs := λ tab, {| active := (1 <=? tab)%nat; idx := 9 |};
       _tabs := [];
       _active := Some 5%nat;
       focused := None;
       dispatched := [] |} in
  let s' := _onSlotchange [0; 1; 2]%nat s in
  _active s' = Some 1%nat ∧
  (active ∘ tabs s') <$> [0; 1; 2]%nat = [false; true; false] ∧
  (idx ∘ tabs s') <$> [0; 1; 2]%nat = [0; 1; 2]%nat ∧
  dispatched s' = [].
Proof. repeat split. Qed.

Example slotchange_loses_active_tab :
  let s :=
    {| tabs := λ tab, {| active := (tab =? 5)%nat; idx := 0 |};
       _tabs := [5%nat];
       _active := Some 5%nat;
       focused := None;
       dispatched := [] |} in
  let s' := _onSlotchange [0; 1]%nat s in
  _active s' = None ∧
  dispatched s' = [{| detail_tab := None; detail_previous := Some 5%nat |}].
Proof. repeat split. Qed.

End Examples.

(** ** More on the worker *)

Module StringFacts.

Lemma substring_all s : substring 0 (String.length s) s = s.
Proof. induction s as [|c s IH]; [reflexivity|]. cbn. by rewrite IH. Qed.

Lemma substring_skip p s m :
  substring (String.length p) m (p +:+ s) = substring 0 m s.
Proof. induction p as [|c p IH]; [reflexivity|]. exact IH. Qed.

Lemma split_at s : ∀ k, (k ≤ String.length s)%nat →
  s = substring 0 k s +:+ substring k (String.length s - k) s.
Proof.
  induction s as [|c s IH]; intros [|k] Hk; cbn in *.
  - reflexivity.
  - lia.
  - by rewrite substring_all.
  - change (String c s =
            String c (substring 0 k s +:+ substring k (String.length s - k) s)).
    f_equal. apply IH. lia.
Qed.

Lemma length_app s1 s2 :
  String.length (s1 +:+ s2) = (String.length s1 + String.length s2)%nat.
Proof.
  induction s1 as [|c s1 IH]; [reflexivity|].
  change (S (String.length (s1 +:+ s2)) = S (String.length s1 + String.length s2)).
  by rewrite IH.
Qed.

(** [endsWith] is true exactly for the strings that are the suffix with
    something in front. *)
Lemma endsWith_spec s suffix :
  Js.endsWith s suffix = true ↔ ∃ stem, s = stem +:+ suffix.
Proof.
  unfold Js.endsWith. rewrite andb_true_iff, Nat.leb_le, String.eqb_eq. split.
  - intros [Hle Hsub].
    exists (substring 0 (String.length s - String.length suffix) s).
    pose proof (split_at s (String.length s - String.length suffix)) as Hsplit.
    replace (String.length s - (String.length s - String.length suffix))%nat
      with (String.length suffix) in Hsplit by lia.
    rewrite Hsub in Hsplit. apply Hsplit. lia.
  - intros [stem ->]. rewrite length_app. split; [lia|].
    replace (String.length stem + String.length suffix - String.length suffix)%nat
      with (String.length stem) by lia.
    by rewrite substring_skip, substring_all.
Qed.

End StringFacts.

Module WorkerExtras.
Import Worker CompileFacts.

(** X1. A file counts as TypeScript or JavaScript exactly when its name is some
    string, possibly empty, followed by [.ts] or by [.js]. *)
Theorem isTsOrJsFile_suffix (file : string) :
  isTsOrJsFile file = true ↔
  ∃ stem, file = stem +:+ ".ts" ∨ file = stem +:+ ".js".
Proof.
  unfold isTsOrJsFile. rewrite orb_true_iff, !StringFacts.endsWith_spec. split.
  - intros [[stem ->]|[stem ->]]; exists stem; [by left|by right].
  - intros [stem [->| ->]]; [left|right]; by exists stem.
Qed.

(** X2. [getScriptFileNames] lists the keys of the file map that end in [.ts] or
    [.js], whatever the status of the record: every such file that exists
    is listed, and so is a pending or redirected one, for which [fileExists]
    is false. *)
Theorem getScriptFileNames_lists_keys
    (host : WorkerLanguageServiceHost) (fileName : string) :
  (fileName ∈ getScriptFileNames host ↔
     is_Some (files host !! fileName) ∧ isTsOrJsFile fileName = true) ∧
  (fileExists host fileName = true → isTsOrJsFile fileName = true →
     fileName ∈ getScriptFileNames host) ∧
  (∀ record, files host !! fileName = Some record →
     isTsOrJsFile fileName = true →
     (record = Pending ∨ ∃ redirectedUrl, record = Redirected redirectedUrl) →
     fileName ∈ getScriptFileNames host ∧ fileExists host fileName = false).
Proof.
  assert (Hlisted : fileName ∈ getScriptFileNames host ↔
            is_Some (files host !! fileName) ∧ isTsOrJsFile fileName = true).
  { unfold getScriptFileNames. rewrite elem_of_filter, elem_of_dom. tauto. }
  split; [exact Hlisted|]. split.
  - intros Hexists Hts. apply Hlisted. split; [|done].
    apply HostFacts.fileExists_resolved in Hexists as (o & text & ->). by eexists.
  - intros record Hrecord Hts Hstatus. split.
    + apply Hlisted. by rewrite Hrecord.
    + unfold fileExists. rewrite Hrecord.
      by destruct Hstatus as [->|[u ->]].
Qed.

Lemma getScriptFileNames_lists_keys_witness :
  let host :=
    {| host_compilerOptions := compilerOptions;
       packageRoot := "https://playground.test";
       files := <["a.ts" := Resolved None "let a = 1;"]>
                  (<["b.js" := Pending]> ∅) |} in
  "a.ts" ∈ getScriptFileNames host ∧
  ("b.js" ∈ getScriptFileNames host ∧ fileExists host "b.js" = false).
Proof.
  intros host.
  pose proof (getScriptFileNames_lists_keys host "a.ts") as (_ & Ha & _).
  pose proof (getScriptFileNames_lists_keys host "b.js") as (_ & _ & Hb).
  split.
  - apply Ha; reflexivity.
  - apply (Hb Pending); [reflexivity|reflexivity|left; reflexivity].
Defined.

Section Extras.
Context `{LanguageService} `{WorkerGlobal} `{ModuleResolution}.

Lemma foldl_snoc_fmap {A B : Type} (g : A → B) (l : list A) (start : list B) :
  foldl (λ acc a, (acc ++ [g a])%list) start l = (start ++ (g <$> l))%list.
Proof.
  revert start. induction l as [|a l IH]; intros start; cbn.
  - by rewrite app_nil_r.
  - by rewrite IH, <- app_assoc.
Qed.

Lemma loadInputFiles_requests inputs :
  (loadInputFiles inputs).2 =
  (λ input : SampleFile * string, BareModuleTypings (content input.1)) <$> inputs.
Proof.
  unfold loadInputFiles.
  rewrite (foldl_pair _
             (λ loaded input, <[(inputEntry input).1 := (inputEntry input).2]> loaded)
             (λ fetcher (input : SampleFile * string),
                (fetcher ++ [BareModuleTypings (content input.1)])%list)).
  - cbn [snd].
    by rewrite (foldl_snoc_fmap
                  (λ input : SampleFile * string, BareModuleTypings (content input.1))).
  - by intros a b [file url].
Qed.

(** X3. The fetcher is told the content of every input file ending in [.ts] or
    [.js], in the order of the input, and then the two libraries of the
    compiler options. *)
Theorem typesFetcher_is_told_inputs_then_libs
    (projectFiles : list SampleFile) (importMap : ModuleImportMap)
    (result : CompileResult) (parked : SlowPass) :
  compileProject projectFiles importMap = Js.Ok (result, parked) →
  typesFetcher parked =
    (((λ file, BareModuleTypings (content file)) <$>
        List.filter (λ file, isTsOrJsFile (name file)) projectFiles)
     ++ [LibTypings "dom"; LibTypings "esnext"])%list.
Proof.
  intros Hcall.
  destruct (compileProject_inv _ _ _ _ Hcall) as (program & _ & _ & -> & _).
  cbn [typesFetcher].
  rewrite loadInputFiles_requests. unfold addLibs, makeInputFiles.
  change (List.map ?f ?l) with (f <$> l). rewrite <- list_fmap_compose.
  cbn [foldl lib compilerOptions]. by rewrite <- app_assoc.
Qed.

(** X4. What the host reads at a URL after the input files are loaded is the
    content of the last input file ending in [.ts] or [.js] that has this
    URL; a URL of no such file does not exist. *)
Theorem host_reads_last_input
    (projectFiles : list SampleFile) (importMap : ModuleImportMap)
    (result : CompileResult) (parked : SlowPass) (url : string) :
  compileProject projectFiles importMap = Js.Ok (result, parked) →
  let host := hostOf (loadedFiles parked) in
  let sameUrl :=
    List.filter (λ file, bool_decide (URL_href (name file) origin = url))
      (List.filter (λ file, isTsOrJsFile (name file)) projectFiles) in
  readFile host url = content <$> list.last sameUrl ∧
  (fileExists host url = true ↔ sameUrl ≠ []).
Proof.
  intros Hcall host sameUrl.
  destruct (compileProject_returns _ _ _ _ Hcall) as (_ & _ & _ & _ & Hloaded & _).
  assert (Hrecord : loadedFiles parked !! url =
            (λ file, Resolved None (content file)) <$> list.last sameUrl).
  { rewrite Hloaded, written_last. unfold makeInputFiles.
    rewrite (filter_map_inputs _ (λ input, bool_decide ((inputEntry input).1 = url))).
    change (List.map ?f ?l) with (f <$> l). rewrite fmap_last. cbn [inputEntry fst snd].
    fold sameUrl. by destruct (list.last sameUrl). }
  subst host. unfold readFile, fileExists. cbn [files hostOf]. rewrite Hrecord.
  destruct (list.last sameUrl) as [file|] eqn:Hlast; cbn.
  - split; [done|]. split; [|done]. intros _ ->. discriminate.
  - split; [done|]. apply last_None in Hlast. by rewrite Hlast.
Qed.

(** X5. The script file names after the input files are loaded are the URLs of
    the input files ending in [.ts] or [.js] that themselves end in [.ts]
    or [.js]. *)
Theorem script_names_are_input_urls
    (projectFiles : list SampleFile) (importMap : ModuleImportMap)
    (result : CompileResult) (parked : SlowPass) (url : string) :
  compileProject projectFiles importMap = Js.Ok (result, parked) →
  (url ∈ getScriptFileNames (hostOf (loadedFiles parked)) ↔
   isTsOrJsFile url = true ∧
   ∃ file, file ∈ projectFiles ∧ isTsOrJsFile (name file) = true ∧
           url = URL_href (name file) origin).
Proof.
  intros Hcall.
  destruct (compileProject_returns _ _ _ _ Hcall) as (_ & _ & _ & _ & Hloaded & _).
  unfold getScriptFileNames. rewrite elem_of_filter, elem_of_dom. cbn [files hostOf].
  rewrite Hloaded. split.
  - intros [Hts [record Hrecord]]. split; [done|].
    destruct (loaded_is_input _ _ _ Hrecord) as (file & Hin & Hfile & -> & _).
    by exists file.
  - intros [Hts (file & Hin & Hfile & ->)]. split; [done|].
    apply (written_is_Some inputEntry _ (file, URL_href (name file) origin)).
    apply elem_of_makeInputFiles. by exists file.
Qed.

(** X6. A throw of [compileProject] rejects the promise it returns and the
    callback is never called, whatever is fetched. It throws 'program was
    undefined' when no [new URL] of an input file throws and
    [getProgram] returns without a program, and it throws what [new URL]
    throws when that throws for the name of an input file. *)
Theorem compileProject_throws_without_program
    (projectFiles : list SampleFile) (importMap : ModuleImportMap) :
  let loaded := (loadInputFiles (makeInputFiles projectFiles)).1 in
  (∀ message,
     compileProject projectFiles importMap = Js.Throw message →
     ∀ getFiles,
       callbackCalls (observe projectFiles importMap getFiles) = [] ∧
       returned (observe projectFiles importMap getFiles) =
         Js.Throw message) ∧
  ((∀ file, file ∈ projectFiles → isTsOrJsFile (name file) = true →
      URL_throws (name file) origin = None) →
   getProgram_throws (hostOf loaded) = None →
   getProgram (hostOf loaded) = None →
   compileProject projectFiles importMap =
     Js.Throw "Unexpected error: program was undefined") ∧
  (∀ file, file ∈ projectFiles → isTsOrJsFile (name file) = true →
     is_Some (URL_throws (name file) origin) →
     ∃ file' message,
       file' ∈ projectFiles ∧ isTsOrJsFile (name file') = true ∧
       URL_throws (name file') origin = Some message ∧
       compileProject projectFiles importMap = Js.Throw message).
Proof.
  intros loaded. split; [|split].
  - intros message Hcall getFiles.
    by destruct (observe_Throw _ _ _ getFiles Hcall) as [-> ->].
  - intros Hurls Hnothrow Hnone. unfold compileProject.
    pose proof (inputFilesOf_cases projectFiles) as Hinputs.
    destruct (inputFilesOf projectFiles) as [inputs|message].
    + destruct Hinputs as [-> _]. cbn [Js.bind]. subst loaded.
      destruct (loadInputFiles (makeInputFiles projectFiles))
        as [files fetcher]. cbn [fst] in *.
      unfold programOf. by rewrite Hnothrow, Hnone.
    + destruct Hinputs as (file & Hin & Hts & Hthrown).
      rewrite (Hurls file Hin Hts) in Hthrown. discriminate.
  - intros file Hin Hts [message Hthrown]. unfold compileProject.
    pose proof (inputFilesOf_cases projectFiles) as Hinputs.
    destruct (inputFilesOf projectFiles) as [inputs|message'].
    + destruct Hinputs as [_ Hurls].
      rewrite (Hurls file Hin Hts) in Hthrown. discriminate.
    + destruct Hinputs as (file' & Hin' & Hts' & Hthrown').
      by exists file', message'.
Qed.




(** X9. A tree in which the resolver calls no import specifier bare comes back
    from the visitor as it went in. *)
Theorem visitor_without_bare_imports
    (importMap : ModuleImportMap) (node : Node) :
  (∀ specifier, specifier ∈ importSpecifiers node →
     type (resolve importMap specifier origin) ≠ "bare") →
  visitor importMap node = node.
Proof.
  induction node as [importClause specifier|kind children IH]
    using TransformFacts.Node_forall_ind; intros Hnone.
  - cbn. destruct (String.eqb_spec (type (resolve importMap specifier origin)) "bare")
      as [Hbare|_]; [|done].
    destruct (Hnone specifier); [apply list_elem_of_here|done].
  - cbn [visitor]. f_equal. cbn [importSpecifiers] in Hnone.
    induction IH as [|child children Hchild _ IHrest]; [reflexivity|].
    cbn [List.map List.concat] in *. f_equal.
    + apply Hchild. intros s Hs. apply Hnone, elem_of_app. by left.
    + apply IHrest. intros s Hs. apply Hnone, elem_of_app. by right.
Qed.

(** X10. When the URL the resolver gives for a bare specifier is itself not
    bare, visiting a visited tree changes nothing more. *)
Theorem visitor_twice
    (importMap : ModuleImportMap) (node : Node) :
  (∀ specifier,
     type (resolve importMap specifier origin) = "bare" →
     type (resolve importMap (url (resolve importMap specifier origin)) origin)
       ≠ "bare") →
  visitor importMap (visitor importMap node) = visitor importMap node.
Proof.
  intros Hurl.
  induction node as [importClause specifier|kind children IH]
    using TransformFacts.Node_forall_ind.
  - cbn. destruct (String.eqb_spec (type (resolve importMap specifier origin)) "bare")
      as [Hbare|Hnot]; cbn.
    + by destruct (String.eqb_spec
                     (type (resolve importMap
                              (url (resolve importMap specifier origin)) origin))
                     "bare") as [Hagain|_]; [destruct (Hurl _ Hbare Hagain)|].
    + by destruct (String.eqb_spec (type (resolve importMap specifier origin)) "bare").
  - cbn [visitor]. f_equal. rewrite List.map_map.
    induction IH as [|child children Hchild _ IHrest]; [reflexivity|].
    cbn [List.map]. by rewrite Hchild, IHrest.
Qed.

End Extras.

Lemma isTsOrJsFile_suffix_witness :
  isTsOrJsFile "src/index.ts" = true ∧ isTsOrJsFile ".js" = true.
Proof.
  split.
  - apply (proj2 (isTsOrJsFile_suffix "src/index.ts")).
    exists "src/index". left. reflexivity.
  - apply (proj2 (isTsOrJsFile_suffix ".js")).
    exists "". right. reflexivity.
Defined.

Lemma typesFetcher_is_told_inputs_then_libs_witness :
  match @compileProject _ Toy.languageService Toy.workerGlobal
          Toy.moduleResolution Toy.twoVersions tt with
  | Js.Ok (result, parked) =>
    typesFetcher parked =
      [BareModuleTypings "let a = 1;"; BareModuleTypings "let a = 2;";
       LibTypings "dom"; LibTypings "esnext"]
  | Js.Throw _ => False
  end.
Proof.
  destruct (@compileProject _ Toy.languageService Toy.workerGlobal
              Toy.moduleResolution Toy.twoVersions tt)
    as [[result parked]|message] eqn:Hcall.
  - exact (@typesFetcher_is_told_inputs_then_libs _ Toy.languageService
             Toy.workerGlobal Toy.moduleResolution Toy.twoVersions tt
             result parked Hcall).
  - vm_compute in Hcall. discriminate Hcall.
Defined.

Lemma host_reads_last_input_witness :
  match @compileProject _ Toy.languageService Toy.workerGlobal
          Toy.moduleResolution Toy.twoVersions tt with
  | Js.Ok (result, parked) =>
    readFile (@hostOf Toy.workerGlobal (loadedFiles parked))
      "https://playground.test/a.ts" = Some "let a = 2;" ∧
    readFile (@hostOf Toy.workerGlobal (loadedFiles parked))
      "https://playground.test/style.css" = None
  | Js.Throw _ => False
  end.
Proof.
  destruct (@compileProject _ Toy.languageService Toy.workerGlobal
              Toy.moduleResolution Toy.twoVersions tt)
    as [[result parked]|message] eqn:Hcall.
  - split.
    + exact (proj1 (@host_reads_last_input _ Toy.languageService
                      Toy.workerGlobal Toy.moduleResolution Toy.twoVersions tt
                      result parked "https://playground.test/a.ts" Hcall)).
    + exact (proj1 (@host_reads_last_input _ Toy.languageService
                      Toy.workerGlobal Toy.moduleResolution Toy.twoVersions tt
                      result parked "https://playground.test/style.css" Hcall)).
  - vm_compute in Hcall. discriminate Hcall.
Defined.

Lemma script_names_are_input_urls_witness :
  match @compileProject _ Toy.languageService Toy.workerGlobal
          Toy.moduleResolution Toy.twoVersions tt with
  | Js.Ok (result, parked) =>
    "https://playground.test/a.ts"
      ∈ getScriptFileNames (@hostOf Toy.workerGlobal (loadedFiles parked))
  | Js.Throw _ => False
  end.
Proof.
  destruct (@compileProject _ Toy.languageService Toy.workerGlobal
              Toy.moduleResolution Toy.twoVersions tt)
    as [[result parked]|message] eqn:Hcall.
  - apply (proj2 (@script_names_are_input_urls _ Toy.languageService
                    Toy.workerGlobal Toy.moduleResolution Toy.twoVersions tt
                    result parked "https://playground.test/a.ts" Hcall)).
    split; [reflexivity|].
    exists {| name := "a.ts"; content := "let a = 1;"; contentType := None |}.
    split; [apply list_elem_of_here|]. split; reflexivity.
  - vm_compute in Hcall. discriminate Hcall.
Defined.

Lemma compileProject_throws_without_program_witness :
  @compileProject _ Toy.languageServiceWithoutProgram Toy.workerGlobal
    Toy.moduleResolution Toy.twoVersions tt =
    Js.Throw "Unexpected error: program was undefined" ∧
  callbackCalls
    (@observe _ Toy.languageServiceWithoutProgram Toy.workerGlobal
       Toy.moduleResolution Toy.twoVersions tt
       (Fulfilled [("lit/index.d.ts", "export {};")])) = [] ∧
  ∃ file message,
    file ∈ Toy.badName ∧ isTsOrJsFile (name file) = true ∧
    @URL_throws Toy.strictGlobal (name file) (@origin Toy.strictGlobal)
      = Some message ∧
    @compileProject _ Toy.languageService Toy.strictGlobal
      Toy.moduleResolution Toy.badName tt = Js.Throw message.
Proof.
  pose proof (@compileProject_throws_without_program _
                Toy.languageServiceWithoutProgram Toy.workerGlobal
                Toy.moduleResolution Toy.twoVersions tt)
    as (Hnever & Hthrows & _).
  pose proof (@compileProject_throws_without_program _
                Toy.languageService Toy.strictGlobal
                Toy.moduleResolution Toy.badName tt) as (_ & _ & Hurl).
  assert (Hcall :
    @compileProject _ Toy.languageServiceWithoutProgram Toy.workerGlobal
      Toy.moduleResolution Toy.twoVersions tt =
      Js.Throw "Unexpected error: program was undefined").
  { apply Hthrows.
    - intros file _ _. reflexivity.
    - reflexivity.
    - reflexivity. }
  split; [exact Hcall|].
  split; [exact (proj1 (Hnever _ Hcall _))|].
  apply (Hurl {| name := "http://[.ts"; content := "let b;";
                 contentType := None |}).
  - apply list_elem_of_further, list_elem_of_here.
  - reflexivity.
  - eexists. reflexivity.
Defined.



Lemma visitor_without_bare_imports_witness :
  @visitor Toy.workerGlobal Toy.moduleResolution tt Toy.relativeOnly = Toy.relativeOnly.
Proof.
  apply (@visitor_without_bare_imports Toy.workerGlobal Toy.moduleResolution).
  intros specifier Hin. apply list_elem_of_singleton in Hin. subst specifier.
  discriminate.
Defined.

Lemma visitor_twice_witness :
  @visitor Toy.workerGlobal Toy.moduleResolutionWithUrls tt
    (@visitor Toy.workerGlobal Toy.moduleResolutionWithUrls tt Toy.program) =
  @visitor Toy.workerGlobal Toy.moduleResolutionWithUrls tt Toy.program.
Proof.
  apply (@visitor_twice Toy.workerGlobal Toy.moduleResolutionWithUrls).
  intros specifier. cbn.
  destruct (String.prefix "." specifier); cbn; [discriminate|].
  destruct (String.prefix "https:" specifier); cbn; [discriminate|].
  intros _. discriminate.
Defined.

End WorkerExtras.

(** ** More on the tab bar *)

Module TabBarExtras.
Import TabBar TabBarFacts.

Lemma tab_eq (a b : VanillaTab) : active a = active b → idx a = idx b → a = b.
Proof. destruct a, b. cbn. by intros -> ->. Qed.

Lemma tabAt_elem s i tab : tabAt s i = Some tab → tab ∈ _tabs s.
Proof.
  unfold tabAt. destruct (i <? 0)%Z; [done|].
  intros Hlook. by apply list_elem_of_lookup_2 in Hlook.
Qed.

Lemma tabAt_nat s (i : nat) : tabAt s (Z.of_nat i) = _tabs s !! i.
Proof.
  unfold tabAt. destruct (Z.ltb_spec (Z.of_nat i) 0); [lia|].
  by rewrite Nat2Z.id.
Qed.

(** *** The setter with [undefined] *)

(** X11. Assigning [undefined] makes the tab held so far inactive, touches no
    other tab, leaves the bar holding nothing, and keeps at most one tab
    active. *)
Theorem set_active_undefined (s : State) :
  let s' := set_active None s in
  _active s' = None ∧
  _tabs s' = _tabs s ∧
  (∀ previous, _active s = Some previous → active (tabs s' previous) = false) ∧
  (∀ other, _active s ≠ Some other → tabs s' other = tabs s other) ∧
  (atMostOneActive s → ∀ tab, tab ∈ _tabs s' → active (tabs s' tab) = false).
Proof.
  unfold set_active. destruct (_active s) as [previous|] eqn:Hprevious.
  - rewrite decide_False by done. cbn.
    split; [done|]. split; [done|]. split.
    { intros ? [= <-]. by rewrite fn_lookup_alter. }
    split.
    { intros other Hother. rewrite fn_lookup_alter_ne; [done|congruence]. }
    intros Hone tab Hin. destruct (decide (previous = tab)) as [->|Hne].
    + by rewrite fn_lookup_alter.
    + rewrite fn_lookup_alter_ne by done.
      destruct (active (tabs s tab)) eqn:Hon; [|done].
      specialize (Hone tab Hin Hon). congruence.
  - rewrite decide_True by done. rewrite Hprevious.
    split; [done|]. split; [done|]. split; [done|]. split; [done|].
    intros Hone tab Hin. destruct (active (tabs s tab)) eqn:Hon; [|done].
    specialize (Hone tab Hin Hon). congruence.
Qed.

Lemma set_active_undefined_witness :
  let s :=
    {| tabs := λ tab, {| active := (tab =? 1)%nat; idx := tab |};
       _tabs := [0; 1]%nat;
       _active := Some 1%nat;
       focused := None;
       dispatched := [] |} in
  active (tabs (set_active None s) 1%nat) = false ∧
  active (tabs (set_active None s) 0%nat) = false.
Proof.
  intros s.
  destruct (set_active_undefined s) as (_ & _ & Hprevious & _ & Hnone).
  split; [apply Hprevious; reflexivity|].
  apply Hnone.
  - intros tab Hin Hon. cbn in Hon. apply Nat.eqb_eq in Hon. by subst tab.
  - apply list_elem_of_here.
Defined.

(** *** Click, update and tabchange *)

(** X12. A click on a tab of a bar with at most one active tab, followed by the
    tab's update (whether or not [active] is among the changes when the tab
    was active already), leaves the bar holding that tab, the tab active,
    every other tab of the bar inactive. *)
Theorem click_makes_tab_the_active_one (s : State) (tab : ref) :
  atMostOneActive s →
  (active (tabs s tab) = true → _active s = Some tab) →
  ∀ changesHasActive,
    (active (tabs s tab) = false → changesHasActive = true) →
    let s' := VanillaTab_update tab changesHasActive (_onClick tab s) in
    _active s' = Some tab ∧
    active (tabs s' tab) = true ∧
    (∀ other, other ∈ _tabs s' → other ≠ tab →
       active (tabs s' other) = false) ∧
    _tabs s' = _tabs s ∧
    atMostOneActive s'.
Proof.
  intros Hone Hheld changesHasActive Hchanged.
  assert (Hmain : ∀ s',
            s' = VanillaTab_update tab changesHasActive (_onClick tab s) →
            _active s' = Some tab ∧ active (tabs s' tab) = true ∧
            (∀ other, other ∈ _tabs s' → other ≠ tab →
               active (tabs s' other) = false) ∧
            _tabs s' = _tabs s).
  { intros s' ->. unfold VanillaTab_update, _onClick. cbn [setTabActive tabs].
    rewrite fn_lookup_alter. cbn [with_active active andb].
    destruct (active (tabs s tab)) eqn:Hwas.
    - specialize (Hheld eq_refl).
      assert (Hsame : _onTabchange (Some tab) (setTabActive tab true s)
                      = setTabActive tab true s).
      { unfold _onTabchange, get_active. cbn. by rewrite decide_True. }
      assert (Hend : (if changesHasActive
                      then _onTabchange (Some tab) (setTabActive tab true s)
                      else setTabActive tab true s) = setTabActive tab true s)
        by (by destruct changesHasActive).
      rewrite Hend. cbn. split; [done|]. split; [by rewrite fn_lookup_alter|].
      split; [|done]. intros other Hin Hne. rewrite fn_lookup_alter_ne by done.
      destruct (active (tabs s other)) eqn:Hon; [|done].
      specialize (Hone other Hin Hon). congruence.
    - rewrite (Hchanged eq_refl).
      destruct (decide (_active s = Some tab)) as [Hsame|Hne].
      + unfold _onTabchange, get_active. cbn. rewrite decide_True by done.
        cbn. split; [done|]. split; [by rewrite fn_lookup_alter|].
        split; [|done]. intros other Hin Hneq. rewrite fn_lookup_alter_ne by done.
        destruct (active (tabs s other)) eqn:Hon; [|done].
        specialize (Hone other Hin Hon). congruence.
      + unfold _onTabchange, get_active. cbn [setTabActive _active].
        rewrite decide_False by congruence.
        pose proof (set_active_other (setTabActive tab true s) tab) as Hset.
        cbn [setTabActive _active] in Hset. specialize (Hset Hne).
        cbn zeta in Hset. destruct Hset as (Hact & Htabs & Hon & Hprev & Hother).
        split; [done|]. split; [done|]. split; [|done].
        intros other Hin Hneq. rewrite Htabs in Hin. cbn in Hin.
        destruct (decide (_active s = Some other)) as [Hwasheld|Hnotheld].
        * by apply Hprev.
        * rewrite (Hother other Hneq Hnotheld). cbn.
          rewrite fn_lookup_alter_ne by done.
          destruct (active (tabs s other)) eqn:Hon'; [|done].
          specialize (Hone other Hin Hon'). congruence. }
  intros s'. destruct (Hmain s' eq_refl) as (Hact & Hon & Hothers & Htabs).
  split; [done|]. split; [done|]. split; [done|]. split; [done|].
  intros other Hin Hactive. rewrite Hact. f_equal.
  destruct (decide (other = tab)) as [->|Hne]; [done|].
  rewrite (Hothers other Hin Hne) in Hactive. discriminate.
Qed.

Lemma click_makes_tab_the_active_one_witness :
  let s :=
    {| tabs := λ tab, {| active := (tab =? 1)%nat; idx := tab |};
       _tabs := [0; 1; 2]%nat;
       _active := Some 1%nat;
       focused := None;
       dispatched := [] |} in
  let s' := VanillaTab_update 2%nat true (_onClick 2%nat s) in
  _active s' = Some 2%nat ∧ active (tabs s' 1%nat) = false.
Proof.
  intros s s'.
  assert (Hone : atMostOneActive s).
  { intros tab Hin Hon. cbn in Hon. apply Nat.eqb_eq in Hon. by subst tab. }
  assert (Hheld : active (tabs s 2%nat) = true → _active s = Some 2%nat)
    by discriminate.
  destruct (click_makes_tab_the_active_one s 2%nat Hone Hheld true (λ _, eq_refl))
    as (Hact & _ & Hothers & _ & _).
  split; [exact Hact|].
  apply Hothers; [|discriminate].
  apply list_elem_of_further, list_elem_of_here.
Defined.

(** *** More on the slot change *)

Lemma first_active_exists (elements : ref → VanillaTab) (l : list ref) :
  (∃ tab, tab ∈ l ∧ active (elements tab) = true) →
  ∃ i tab, firstActiveAt elements l i tab.
Proof.
  intros (tab & Hin & Hon).
  destruct (list_find (λ tab, active (elements tab) = true) l)
    as [[i first]|] eqn:Hfind.
  - apply list_find_Some in Hfind as (Hlook & Hfirst & Hbefore).
    exists i, first. split; [done|]. split; [done|].
    intros j other Hlt Hother.
    destruct (active (elements other)) eqn:Hactive; [|done].
    by destruct (Hbefore j other Hother Hlt).
  - apply list_find_None in Hfind.
    rewrite Forall_forall in Hfind. apply list_elem_of_In in Hin.
    by destruct (Hfind tab Hin).
Qed.

Lemma firstActiveAt_unique (elements : ref → VanillaTab) (l : list ref) i j a b :
  firstActiveAt elements l i a → firstActiveAt elements l j b → i = j ∧ a = b.
Proof.
  intros (Hi & Hai & Hbi) (Hj & Haj & Hbj).
  destruct (Nat.lt_trichotomy i j) as [Hlt|[->|Hgt]].
  - rewrite (Hbj i a Hlt Hi) in Hai. discriminate.
  - split; [done|]. congruence.
  - rewrite (Hbi j b Hgt Hj) in Haj. discriminate.
Qed.

Lemma _onSlotchange_dispatched assigned s :
  dispatched (_onSlotchange assigned s) =
  match _active (_onSlotchange assigned s), _active s with
  | None, Some previous =>
    (dispatched s ++
       [{| detail_tab := None; detail_previous := Some previous |}])%list
  | _, _ => dispatched s
  end.
Proof.
  unfold _onSlotchange.
  by destruct (slotchangeLoop 0 assigned (tabs s) None) as [elements current].
Qed.

Lemma _onSlotchange_focused assigned s :
  focused (_onSlotchange assigned s) = focused s.
Proof.
  unfold _onSlotchange.
  by destruct (slotchangeLoop 0 assigned (tabs s) None) as [elements current].
Qed.

(** X13. A slot change over distinct elements settles the bar: each tab carries
    its position, the tab the bar holds is one of the assigned tabs, and an
    assigned tab is active exactly when the bar holds it. *)
Theorem slotchange_settles_the_bar (s : State) (assigned : list ref) :
  NoDup assigned → positioned (_onSlotchange assigned s).
Proof.
  intros Hnodup.
  destruct (_onSlotchange_spec s assigned Hnodup)
    as (Htabs & Hidx & Hactive & Hcurrent & _).
  unfold positioned. rewrite Htabs.
  split; [done|]. split; [done|]. split.
  - intros tab Hin. apply list_elem_of_lookup in Hin as [i Hlook].
    rewrite (Hactive i tab Hlook), Hcurrent. split.
    + intros Hfirst. by exists i.
    + intros [j Hfirst]. pose proof Hfirst as (Hlook' & _).
      by rewrite (NoDup_lookup _ _ _ _ Hnodup Hlook Hlook').
  - intros tab [i (Hlook & _)]%Hcurrent. by apply list_elem_of_lookup_2 in Hlook.
Qed.

Lemma slotchange_settles_the_bar_witness :
  let s :=
    {| tabs := λ tab, {| active := true; idx := 7 |};
       _tabs := [];
       _active := None;
       focused := None;
       dispatched := [] |} in
  positioned (_onSlotchange [4; 2]%nat s).
Proof.
  intros s. apply slotchange_settles_the_bar.
  apply NoDup_cons_2; [|apply NoDup_cons_2; [apply not_elem_of_nil|apply NoDup_nil_2]].
  rewrite elem_of_cons, elem_of_nil. intros [?|[]]; discriminate.
Defined.

(** X14. The bar dispatches [tabchange] on a slot change exactly when it held a
    tab before and none of the assigned tabs is active: the event then has
    no tab and the tab held before as [previous]. Otherwise nothing is
    dispatched. *)
Theorem slotchange_dispatches_when_active_tab_is_lost
    (s : State) (assigned : list ref) :
  NoDup assigned →
  let s' := _onSlotchange assigned s in
  (∀ previous,
     _active s = Some previous →
     (∀ tab, tab ∈ assigned → active (tabs s tab) = false) →
     _active s' = None ∧
     dispatched s' =
       (dispatched s ++
          [{| detail_tab := None; detail_previous := Some previous |}])%list) ∧
  (_active s = None ∨ (∃ tab, tab ∈ assigned ∧ active (tabs s tab) = true) →
     dispatched s' = dispatched s).
Proof.
  intros Hnodup s'.
  destruct (_onSlotchange_spec s assigned Hnodup) as (_ & _ & _ & Hcurrent & _).
  fold s' in Hcurrent.
  pose proof (_onSlotchange_dispatched assigned s) as Hdispatched.
  fold s' in Hdispatched. split.
  - intros previous Hprevious Hnone.
    assert (Hlost : _active s' = None).
    { destruct (_active s') as [tab|] eqn:Hheld; [|done].
      destruct (proj1 (Hcurrent tab) eq_refl) as [i (Hlook & Hon & _)].
      apply list_elem_of_lookup_2 in Hlook. rewrite (Hnone tab Hlook) in Hon.
      discriminate. }
    split; [done|]. by rewrite Hdispatched, Hlost, Hprevious.
  - intros [Hnothing|Hsome].
    + rewrite Hdispatched, Hnothing. by destruct (_active s').
    + destruct (first_active_exists _ _ Hsome) as (i & tab & Hfirst).
      assert (Hheld : _active s' = Some tab) by (apply Hcurrent; by exists i).
      by rewrite Hdispatched, Hheld.
Qed.

Lemma slotchange_dispatches_when_active_tab_is_lost_witness :
  let s :=
    {| tabs := λ tab, {| active := (tab =? 5)%nat; idx := 0 |};
       _tabs := [5%nat];
       _active := Some 5%nat;
       focused := None;
       dispatched := [] |} in
  dispatched (_onSlotchange [0; 1]%nat s) =
    [{| detail_tab := None; detail_previous := Some 5%nat |}] ∧
  dispatched (_onSlotchange [5]%nat s) = [].
Proof.
  intros s.
  assert (Hpair : NoDup [0; 1]%nat).
  { apply NoDup_cons_2; [|apply NoDup_cons_2; [apply not_elem_of_nil|apply NoDup_nil_2]].
    rewrite elem_of_cons, elem_of_nil. intros [?|[]]; discriminate. }
  assert (Hone : NoDup [5]%nat).
  { apply NoDup_cons_2; [apply not_elem_of_nil|apply NoDup_nil_2]. }
  split.
  - destruct (slotchange_dispatches_when_active_tab_is_lost s [0; 1]%nat Hpair)
      as [Hlost _].
    apply (Hlost 5%nat eq_refl).
    intros tab Hin. cbn.
    apply elem_of_cons in Hin as [->|Hin]; [reflexivity|].
    apply list_elem_of_singleton in Hin as ->. reflexivity.
  - destruct (slotchange_dispatches_when_active_tab_is_lost s [5]%nat Hone)
      as [_ Hkept].
    apply Hkept. right. exists 5%nat. split; [apply list_elem_of_here|reflexivity].
Defined.

(** X15. When one assigned tab is active and no other, the slot change makes it
    the tab the bar holds, changes no tab's [active] flag and dispatches
    nothing: adding, removing or reordering inactive tabs keeps the active
    tab. *)
Theorem slotchange_keeps_the_active_tab
    (s : State) (assigned : list ref) (current : ref) :
  NoDup assigned →
  current ∈ assigned →
  active (tabs s current) = true →
  (∀ tab, tab ∈ assigned → active (tabs s tab) = true → tab = current) →
  let s' := _onSlotchange assigned s in
  _active s' = Some current ∧
  (∀ tab, active (tabs s' tab) = active (tabs s tab)) ∧
  dispatched s' = dispatched s.
Proof.
  intros Hnodup Hin Hon Honly s'.
  destruct (_onSlotchange_spec s assigned Hnodup)
    as (_ & _ & Hactive & Hcurrent & Hout).
  fold s' in Hactive, Hcurrent, Hout.
  apply list_elem_of_lookup in Hin as [i Hlook].
  assert (Hfirst : firstActiveAt (tabs s) assigned i current).
  { split; [done|]. split; [done|]. intros j other Hlt Hother.
    destruct (active (tabs s other)) eqn:Hactive'; [|done].
    assert (other = current) as ->
      by (apply Honly; [by apply list_elem_of_lookup_2 in Hother|done]).
    rewrite (NoDup_lookup _ _ _ _ Hnodup Hlook Hother) in Hlt. lia. }
  assert (Hheld : _active s' = Some current) by (apply Hcurrent; by exists i).
  split; [done|]. split.
  - intros tab. destruct (decide (tab ∈ assigned)) as [Htab|Htab].
    + apply list_elem_of_lookup in Htab as [j Hj].
      apply eq_true_iff_eq. rewrite (Hactive j tab Hj). split.
      * by intros (_ & ? & _).
      * intros Htrue.
        assert (tab = current) as ->
          by (apply Honly; [by apply list_elem_of_lookup_2 in Hj|done]).
        by rewrite (NoDup_lookup _ _ _ _ Hnodup Hj Hlook).
    + by rewrite (Hout tab Htab).
  - pose proof (_onSlotchange_dispatched assigned s) as Hdispatched.
    fold s' in Hdispatched. by rewrite Hdispatched, Hheld.
Qed.

Lemma slotchange_keeps_the_active_tab_witness :
  let s :=
    {| tabs := λ tab, {| active := (tab =? 5)%nat; idx := 0 |};
       _tabs := [5%nat];
       _active := Some 5%nat;
       focused := None;
       dispatched := [] |} in
  _active (_onSlotchange [3; 5]%nat s) = Some 5%nat.
Proof.
  intros s.
  refine (proj1 (slotchange_keeps_the_active_tab s [3; 5]%nat 5%nat _ _ _ _)).
  - apply NoDup_cons_2; [|apply NoDup_cons_2; [apply not_elem_of_nil|apply NoDup_nil_2]].
    rewrite elem_of_cons, elem_of_nil. intros [?|[]]; discriminate.
  - apply list_elem_of_further, list_elem_of_here.
  - reflexivity.
  - intros tab _ Hon. cbn in Hon. by apply Nat.eqb_eq in Hon.
Defined.

(** X16. A second slot change with the same elements changes nothing: the same
    tab is held, every tab is as the first slot change left it, and nothing
    more is dispatched. *)
Theorem slotchange_twice (s : State) (assigned : list ref) :
  NoDup assigned →
  let s' := _onSlotchange assigned s in
  let s'' := _onSlotchange assigned s' in
  _tabs s'' = _tabs s' ∧
  _active s'' = _active s' ∧
  (∀ tab, tabs s'' tab = tabs s' tab) ∧
  focused s'' = focused s' ∧
  dispatched s'' = dispatched s'.
Proof.
  intros Hnodup s' s''.
  destruct (_onSlotchange_spec s assigned Hnodup)
    as (Htabs & Hidx & Hactive & Hcurrent & _).
  destruct (_onSlotchange_spec s' assigned Hnodup)
    as (Htabs' & Hidx' & Hactive' & Hcurrent' & Hout').
  fold s' in Htabs, Hidx, Hactive, Hcurrent.
  fold s'' in Htabs', Hidx', Hactive', Hcurrent', Hout'.
  assert (Hstable : ∀ i tab,
            firstActiveAt (tabs s') assigned i tab ↔
            firstActiveAt (tabs s) assigned i tab).
  { intros i tab. split.
    - intros (Hlook & Hon & _). by apply (Hactive i tab Hlook).
    - intros Hfirst. pose proof Hfirst as (Hlook & _).
      split; [done|]. split; [by apply (Hactive i tab Hlook)|].
      intros j other Hlt Hother.
      destruct (active (tabs s' other)) eqn:Hon; [|done].
      apply (Hactive j other Hother) in Hon.
      destruct (firstActiveAt_unique _ _ _ _ _ _ Hon Hfirst) as [-> _]. lia. }
  assert (Hsame : _active s'' = _active s').
  { apply option_eq. intros tab. rewrite Hcurrent', Hcurrent.
    split; intros [i Hfirst]; exists i; by apply Hstable. }
  split; [by rewrite Htabs, Htabs'|]. split; [done|]. split.
  - intros tab. destruct (decide (tab ∈ assigned)) as [Htab|Htab].
    + apply list_elem_of_lookup in Htab as [i Hlook]. apply tab_eq.
      * apply eq_true_iff_eq.
        by rewrite (Hactive' i tab Hlook), Hstable, (Hactive i tab Hlook).
      * by rewrite (Hidx i tab Hlook), (Hidx' i tab Hlook).
    + by apply Hout'.
  - split; [apply _onSlotchange_focused|].
    pose proof (_onSlotchange_dispatched assigned s') as Hdispatched.
    fold s'' in Hdispatched. rewrite Hdispatched, Hsame.
    by destruct (_active s').
Qed.

Lemma slotchange_twice_witness :
  let s :=
    {| tabs := λ tab, {| active := true; idx := 7 |};
       _tabs := [];
       _active := Some 9%nat;
       focused := None;
       dispatched := [] |} in
  let s' := _onSlotchange [4; 2]%nat s in
  _active (_onSlotchange [4; 2]%nat s') = _active s' ∧
  tabs (_onSlotchange [4; 2]%nat s') 2%nat = tabs s' 2%nat.
Proof.
  intros s s'.
  assert (Hpair : NoDup [4; 2]%nat).
  { apply NoDup_cons_2; [|apply NoDup_cons_2; [apply not_elem_of_nil|apply NoDup_nil_2]].
    rewrite elem_of_cons, elem_of_nil. intros [?|[]]; discriminate. }
  destruct (slotchange_twice s [4; 2]%nat Hpair) as (_ & Hheld & Hsame & _).
  split; [exact Hheld|apply Hsame].
Defined.

(** *** More on the arrow keys *)

Lemma _onKeydown_cases key s s' :
  _onKeydown key s = Js.Ok s' →
  s' = s ∨ ∃ tab, tab ∈ _tabs s ∧ s' = activatedAndFocused tab s.
Proof.
  rewrite _onKeydown_unfold. cbn zeta.
  destruct (_ =? _)%Z; [intros [= <-]; by left|].
  destruct (tabAt s _) as [tab|] eqn:Hat; [|discriminate].
  intros [= <-]. right. exists tab. split; [|done]. by apply tabAt_elem in Hat.
Qed.

(** X17. A keydown the bar handles without throwing never changes the tabs of
    the bar, the tab the bar holds, any [idx], or the events dispatched, and
    never makes a tab inactive: either nothing changes, or one tab of the
    bar is made active and gets the focus. *)
Theorem keydown_only_activates (key : string) (s s' : State) :
  _onKeydown key s = Js.Ok s' →
  _tabs s' = _tabs s ∧
  _active s' = _active s ∧
  dispatched s' = dispatched s ∧
  (∀ tab, idx (tabs s' tab) = idx (tabs s tab)) ∧
  (∀ tab, active (tabs s tab) = true → active (tabs s' tab) = true) ∧
  (s' = s ∨
   ∃ tab, tab ∈ _tabs s ∧ focused s' = Some tab ∧
          active (tabs s' tab) = true ∧
          ∀ other, other ≠ tab → tabs s' other = tabs s other).
Proof.
  intros Hkey. apply _onKeydown_cases in Hkey as [->|(tab & Hin & ->)].
  - repeat (split; [done|]). by left.
  - cbn. split; [done|]. split; [done|]. split; [done|]. split; [|split].
    + intros other. destruct (decide (tab = other)) as [->|Hne].
      * by rewrite fn_lookup_alter.
      * by rewrite fn_lookup_alter_ne.
    + intros other Hon. destruct (decide (tab = other)) as [->|Hne].
      * by rewrite fn_lookup_alter.
      * by rewrite fn_lookup_alter_ne.
    + right. exists tab. split; [done|]. split; [done|].
      split; [by rewrite fn_lookup_alter|].
      intros other Hne. by rewrite fn_lookup_alter_ne.
Qed.

Lemma keydown_only_activates_witness :
  let s :=
    {| tabs := λ tab, {| active := (tab =? 11)%nat; idx := tab - 10 |};
       _tabs := [10; 11; 12]%nat;
       _active := Some 11%nat;
       focused := None;
       dispatched := [] |} in
  _active (activatedAndFocused 12%nat s) = Some 11%nat ∧
  active (tabs (activatedAndFocused 12%nat s) 11%nat) = true.
Proof.
  intros s.
  destruct (keydown_only_activates "ArrowRight" s (activatedAndFocused 12%nat s)
              eq_refl) as (_ & Hheld & _ & _ & Hstill & _).
  split; [exact Hheld|]. apply Hstill. reflexivity.
Defined.

Lemma positioned_oldIdx s :
  positioned s → (oldIdxOf s ≤ Z.of_nat (List.length (_tabs s)))%Z.
Proof.
  intros (_ & Hidx & _ & Hheld). unfold oldIdxOf.
  destruct (_active s) as [current|]; [|lia].
  destruct (proj1 (list_elem_of_lookup _ _) (Hheld current eq_refl)) as [i Hlook].
  rewrite (Hidx i current Hlook).
  apply lookup_lt_Some in Hlook. lia.
Qed.

Lemma twoTabs_positioned : positioned Toy.twoTabs.
Proof.
  split; [|split; [|split]].
  - apply NoDup_cons_2; [|apply NoDup_cons_2; [apply not_elem_of_nil|apply NoDup_nil_2]].
    rewrite elem_of_cons, elem_of_nil. intros [?|[]]; discriminate.
  - intros [|[|i]] tab Hlook; try discriminate; by injection Hlook as <-.
  - intros tab Hin. cbn. rewrite Nat.eqb_eq. split; [by intros ->|by intros [= ->]].
  - intros tab [= <-]. apply list_elem_of_here.
Qed.

(** X18. In a settled bar no key makes the handler throw. *)
Theorem keydown_never_throws_when_settled (key : string) (s : State) :
  positioned s → ∃ s', _onKeydown key s = Js.Ok s'.
Proof.
  intros Hpositioned. pose proof (positioned_oldIdx s Hpositioned) as Hbound.
  pose proof (oldIdxOf_nonneg s) as Hnonneg.
  rewrite _onKeydown_unfold. cbn zeta.
  set (oldIdx := oldIdxOf s) in *. set (n := Z.of_nat (List.length (_tabs s))) in *.
  assert (Hsafe : ∀ newIdx, (newIdx = oldIdx ∨ 0 ≤ newIdx < n)%Z →
            ∃ s', (if (newIdx =? oldIdx)%Z then Js.Ok s
                   else match tabAt s newIdx with
                        | Some tab => Js.Ok (activatedAndFocused tab s)
                        | None => Js.Throw
                                    "TypeError: cannot set properties of undefined"
                        end) = Js.Ok s').
  { intros newIdx [->|Hrange].
    - rewrite Z.eqb_refl. by eexists.
    - destruct (newIdx =? oldIdx)%Z; [by eexists|].
      destruct (tabAt_in_range s newIdx Hrange) as [tab ->]. by eexists. }
  apply Hsafe.
  destruct (String.eqb key "ArrowLeft").
  - destruct (Z.ltb_spec 0 oldIdx); [right; lia|by left].
  - destruct (String.eqb key "ArrowRight"); [|by left].
    destruct (Z.ltb_spec oldIdx (n - 1)); [right; lia|by left].
Qed.

Lemma keydown_never_throws_when_settled_witness :
  ∃ s', _onKeydown "ArrowLeft" Toy.twoTabs = Js.Ok s'.
Proof.
  apply keydown_never_throws_when_settled. exact twoTabs_positioned.
Defined.

(** X19. When the bar holds no tab the handler counts from index 0: ArrowLeft
    changes nothing, and ArrowRight activates and focuses the second tab of
    the bar, or changes nothing when there are fewer than two tabs. *)
Theorem keydown_without_active_tab (s : State) :
  _active s = None →
  _onKeydown "ArrowLeft" s = Js.Ok s ∧
  (∀ second, _tabs s !! 1%nat = Some second →
     _onKeydown "ArrowRight" s = Js.Ok (activatedAndFocused second s)) ∧
  (_tabs s !! 1%nat = None → _onKeydown "ArrowRight" s = Js.Ok s).
Proof.
  intros Hnone. rewrite !_onKeydown_unfold. unfold oldIdxOf. rewrite Hnone.
  split; [reflexivity|]. cbn [String.eqb Ascii.eqb Bool.eqb]. cbn zeta.
  change (0 + 1)%Z with (Z.of_nat 1). split.
  - intros second Hsecond.
    assert (2 ≤ List.length (_tabs s))%nat
      by (apply lookup_lt_Some in Hsecond; lia).
    destruct (Z.ltb_spec 0 (Z.of_nat (List.length (_tabs s)) - 1)); [|lia].
    destruct (Z.eqb_spec (Z.of_nat 1) 0); [lia|].
    by rewrite tabAt_nat, Hsecond.
  - intros Hshort. apply lookup_ge_None in Hshort.
    destruct (Z.ltb_spec 0 (Z.of_nat (List.length (_tabs s)) - 1)); [lia|done].
Qed.

Lemma keydown_without_active_tab_witness :
  let s :=
    {| tabs := λ tab, {| active := false; idx := tab |};
       _tabs := [0; 1; 2]%nat;
       _active := None;
       focused := None;
       dispatched := [] |} in
  _onKeydown "ArrowRight" s = Js.Ok (activatedAndFocused 1%nat s).
Proof.
  intros s.
  destruct (keydown_without_active_tab s eq_refl) as (_ & Hright & _).
  apply Hright. reflexivity.
Defined.

(** Making a tab of a settled bar active and running its update: the bar
    then holds that tab, the tab held before is inactive, nothing else has
    changed, and the bar is settled again. *)
Lemma activate_and_update s current next :
  positioned s →
  _active s = Some current →
  next ∈ _tabs s →
  next ≠ current →
  let s' := VanillaTab_update next true (activatedAndFocused next s) in
  _active s' = Some next ∧
  focused s' = Some next ∧
  _tabs s' = _tabs s ∧
  dispatched s' = dispatched s ∧
  tabs s' next = with_active true (tabs s next) ∧
  tabs s' current = with_active false (tabs s current) ∧
  (∀ other, other ≠ next → other ≠ current → tabs s' other = tabs s other) ∧
  positioned s'.
Proof.
  intros (Hnodup & Hidx & Hactive & Hheld) Hcurrent Hin Hne s'.
  assert (Hs' : s' = set_bar_active (Some next)
                  (setTabActive next true
                     (setTabActive current false (activatedAndFocused next s)))).
  { subst s'.
    assert (Hheld1 : _active (activatedAndFocused next s) = Some current)
      by exact Hcurrent.
    assert (Hon1 : active (tabs (activatedAndFocused next s) next) = true).
    { cbn. by rewrite fn_lookup_alter. }
    unfold VanillaTab_update. rewrite Hon1. cbn [andb].
    unfold _onTabchange, get_active. rewrite Hheld1.
    rewrite decide_False by congruence.
    unfold set_active. rewrite Hheld1. by rewrite decide_False by congruence. }
  assert (Hnext : tabs s' next = with_active true (tabs s next)).
  { rewrite Hs'. cbn. rewrite fn_lookup_alter, fn_lookup_alter_ne by done.
    rewrite fn_lookup_alter. by destruct (tabs s next). }
  assert (Hprev : tabs s' current = with_active false (tabs s current)).
  { rewrite Hs'. cbn. rewrite fn_lookup_alter_ne by done.
    rewrite fn_lookup_alter. by rewrite fn_lookup_alter_ne. }
  assert (Hrest : ∀ other, other ≠ next → other ≠ current →
            tabs s' other = tabs s other).
  { intros other Hn Hc. rewrite Hs'. cbn.
    by rewrite !fn_lookup_alter_ne. }
  assert (Hact : _active s' = Some next) by (by rewrite Hs').
  assert (Hfocus : focused s' = Some next) by (by rewrite Hs').
  assert (Htabs : _tabs s' = _tabs s) by (by rewrite Hs').
  assert (Hdispatched : dispatched s' = dispatched s) by (by rewrite Hs').
  repeat (split; [done|]).
  unfold positioned. rewrite Htabs, Hact.
  split; [done|]. split; [|split].
  - intros i tab Hlook. rewrite <- (Hidx i tab Hlook).
    destruct (decide (tab = next)) as [->|Hn]; [by rewrite Hnext|].
    destruct (decide (tab = current)) as [->|Hc]; [by rewrite Hprev|].
    by rewrite Hrest.
  - intros tab Htab.
    destruct (decide (tab = next)) as [->|Hn]; [by rewrite Hnext|].
    destruct (decide (tab = current)) as [->|Hc].
    + rewrite Hprev. cbn. split; [done|]. intros [= ->]. done.
    + rewrite (Hrest tab Hn Hc), (Hactive tab Htab), Hcurrent.
      split; intros [= ->]; done.
  - by intros tab [= <-].
Qed.

Lemma arrow_key_moves_to_neighbour_keys s (i : nat) (lower upper : ref) :
  positioned s →
  _tabs s !! i = Some lower →
  _tabs s !! S i = Some upper →
  (_active s = Some lower →
     _onKeydown "ArrowRight" s = Js.Ok (activatedAndFocused upper s)) ∧
  (_active s = Some upper →
     _onKeydown "ArrowLeft" s = Js.Ok (activatedAndFocused lower s)).
Proof.
  intros (Hnodup & Hidx & _ & _) Hlower Hupper.
  assert (Hlen : (S i < List.length (_tabs s))%nat)
    by (by apply lookup_lt_Some in Hupper).
  split; intros Hheld.
  - rewrite _onKeydown_unfold. unfold oldIdxOf. rewrite Hheld, (Hidx i lower Hlower).
    cbn [String.eqb Ascii.eqb Bool.eqb].
    destruct (Z.ltb_spec (Z.of_nat i) (Z.of_nat (List.length (_tabs s)) - 1)); [|lia].
    destruct (Z.eqb_spec (Z.of_nat i + 1) (Z.of_nat i)); [lia|].
    replace (Z.of_nat i + 1)%Z with (Z.of_nat (S i)) by lia.
    by rewrite tabAt_nat, Hupper.
  - rewrite _onKeydown_unfold. unfold oldIdxOf. rewrite Hheld, (Hidx (S i) upper Hupper).
    cbn [String.eqb Ascii.eqb Bool.eqb].
    destruct (Z.ltb_spec 0 (Z.of_nat (S i))); [|lia].
    destruct (Z.eqb_spec (Z.of_nat (S i) - 1) (Z.of_nat (S i))); [lia|].
    replace (Z.of_nat (S i) - 1)%Z with (Z.of_nat i) by lia.
    by rewrite tabAt_nat, Hlower.
Qed.

(** X20. In a settled bar that holds a tab, an arrow key followed by the update
    of the tab it activated moves the bar to the neighbour: ArrowRight to
    the tab one position up, ArrowLeft to the tab one position down. The
    tab held before is inactive then, and the bar is settled again. *)
Theorem arrow_key_moves_to_neighbour
    (s : State) (i : nat) (lower upper : ref) :
  positioned s →
  _tabs s !! i = Some lower →
  _tabs s !! S i = Some upper →
  (_active s = Some lower →
     _onKeydown "ArrowRight" s = Js.Ok (activatedAndFocused upper s) ∧
     let s' := VanillaTab_update upper true (activatedAndFocused upper s) in
     _active s' = Some upper ∧ focused s' = Some upper ∧
     active (tabs s' lower) = false ∧ positioned s') ∧
  (_active s = Some upper →
     _onKeydown "ArrowLeft" s = Js.Ok (activatedAndFocused lower s) ∧
     let s' := VanillaTab_update lower true (activatedAndFocused lower s) in
     _active s' = Some lower ∧ focused s' = Some lower ∧
     active (tabs s' upper) = false ∧ positioned s').
Proof.
  intros Hpositioned Hlower Hupper.
  pose proof Hpositioned as (Hnodup & _).
  assert (Hne : lower ≠ upper).
  { intros ->. pose proof (NoDup_lookup _ _ _ _ Hnodup Hlower Hupper). lia. }
  destruct (arrow_key_moves_to_neighbour_keys s i lower upper Hpositioned
              Hlower Hupper) as [Hright Hleft].
  split; intros Hheld.
  - split; [by apply Hright|].
    destruct (activate_and_update s lower upper Hpositioned Hheld)
      as (? & ? & _ & _ & _ & Hprev & _ & ?);
      [by apply list_elem_of_lookup_2 in Hupper|done|].
    cbn zeta. by rewrite Hprev.
  - split; [by apply Hleft|].
    destruct (activate_and_update s upper lower Hpositioned Hheld)
      as (? & ? & _ & _ & _ & Hprev & _ & ?);
      [by apply list_elem_of_lookup_2 in Hlower|done|].
    cbn zeta. by rewrite Hprev.
Qed.

Lemma arrow_key_moves_to_neighbour_witness :
  _onKeydown "ArrowRight" Toy.twoTabs =
    Js.Ok (activatedAndFocused 11%nat Toy.twoTabs) ∧
  _active (VanillaTab_update 11%nat true (activatedAndFocused 11%nat Toy.twoTabs))
    = Some 11%nat.
Proof.
  destruct (arrow_key_moves_to_neighbour Toy.twoTabs 0%nat 10%nat 11%nat
              twoTabs_positioned eq_refl eq_refl) as [Hright _].
  destruct (Hright eq_refl) as (Hkey & Hheld & _).
  split; [exact Hkey|exact Hheld].
Defined.

(** X21. In a settled bar, ArrowRight and then ArrowLeft, each followed by the
    update of the tab it activated, bring back the tab held at the start
    and leave every tab as it was. *)
Theorem arrow_right_then_left (s : State) (i : nat) (lower upper : ref) :
  positioned s →
  _tabs s !! i = Some lower →
  _tabs s !! S i = Some upper →
  _active s = Some lower →
  let right := VanillaTab_update upper true (activatedAndFocused upper s) in
  let back := VanillaTab_update lower true (activatedAndFocused lower right) in
  _onKeydown "ArrowRight" s = Js.Ok (activatedAndFocused upper s) ∧
  _onKeydown "ArrowLeft" right = Js.Ok (activatedAndFocused lower right) ∧
  _active back = _active s ∧
  _tabs back = _tabs s ∧
  (∀ tab, tabs back tab = tabs s tab).
Proof.
  intros Hpositioned Hlower Hupper Hheld right back.
  pose proof Hpositioned as (Hnodup & _ & Hactive & _).
  assert (Hne : upper ≠ lower).
  { intros ->. pose proof (NoDup_lookup _ _ _ _ Hnodup Hlower Hupper). lia. }
  assert (HinU : upper ∈ _tabs s) by (by apply list_elem_of_lookup_2 in Hupper).
  assert (HinL : lower ∈ _tabs s) by (by apply list_elem_of_lookup_2 in Hlower).
  destruct (activate_and_update s lower upper Hpositioned Hheld HinU Hne)
    as (Hheld1 & _ & Htabs1 & _ & Hup1 & Hlow1 & Hrest1 & Hpos1).
  fold right in Hheld1, Htabs1, Hup1, Hlow1, Hrest1, Hpos1.
  assert (HinL1 : lower ∈ _tabs right) by (by rewrite Htabs1).
  destruct (activate_and_update right upper lower Hpos1 Hheld1 HinL1 (not_eq_sym Hne))
    as (Hheld2 & _ & Htabs2 & _ & Hlow2 & Hup2 & Hrest2 & _).
  fold back in Hheld2, Htabs2, Hlow2, Hup2, Hrest2.
  destruct (arrow_key_moves_to_neighbour_keys s i lower upper Hpositioned
              Hlower Hupper) as [Hright _].
  assert (Hlower1 : _tabs right !! i = Some lower) by (by rewrite Htabs1).
  assert (Hupper1 : _tabs right !! S i = Some upper) by (by rewrite Htabs1).
  destruct (arrow_key_moves_to_neighbour_keys right i lower upper Hpos1
              Hlower1 Hupper1) as [_ Hleft].
  split; [by apply Hright|]. split; [by apply Hleft|].
  split; [by rewrite Hheld2|]. split; [by rewrite Htabs2|].
  intros tab.
  destruct (decide (tab = lower)) as [->|Hl].
  - rewrite Hlow2, Hlow1. apply tab_eq; [|done]. cbn. symmetry.
    by apply (Hactive lower HinL).
  - destruct (decide (tab = upper)) as [->|Hu].
    + rewrite Hup2, Hup1. apply tab_eq; [|done]. cbn.
      destruct (active (tabs s upper)) eqn:Hon; [|done].
      apply (Hactive upper HinU) in Hon. congruence.
    + by rewrite (Hrest2 tab Hl Hu), (Hrest1 tab Hu Hl).
Qed.

Lemma arrow_right_then_left_witness :
  let right :=
    VanillaTab_update 11%nat true (activatedAndFocused 11%nat Toy.twoTabs) in
  let back := VanillaTab_update 10%nat true (activatedAndFocused 10%nat right) in
  _active back = Some 10%nat ∧ tabs back 11%nat = tabs Toy.twoTabs 11%nat.
Proof.
  intros right back.
  destruct (arrow_right_then_left Toy.twoTabs 0%nat 10%nat 11%nat
              twoTabs_positioned eq_refl eq_refl eq_refl)
    as (_ & _ & Hheld & _ & Hsame).
  split; [exact Hheld|apply Hsame].
Defined.

End TabBarExtras.

(** ** More on the file editor *)

Module EditorExtras.
Import FileEditor EditorFacts FileEditorFacts.

Lemma stripParameters_app (m p : string) :
  stripParameters (m +:+ ";" +:+ p) = stripParameters m.
Proof.
  induction m as [|c m IH]; [reflexivity|].
  change (String c m +:+ ";" +:+ p) with (String c (m +:+ ";" +:+ p)).
  cbn [stripParameters]. by rewrite IH.
Qed.

(** X22. Whatever follows a [;] in a mime type does not matter. *)
Theorem mimeTypeToTypeEnum_ignores_parameters (mimeType parameters : string) :
  mimeTypeToTypeEnum (Some (mimeType +:+ ";" +:+ parameters)) =
  mimeTypeToTypeEnum (Some mimeType).
Proof. by rewrite !mimeTypeToTypeEnum_stripped, stripParameters_app. Qed.

Lemma editor_eq (a b : PlaygroundFileEditor) :
  _project a = _project b → filename a = filename b →
  lineNumbers a = lineNumbers b → pragmas a = pragmas b →
  readonly a = readonly b → _editor_value a = _editor_value b → a = b.
Proof. destruct a, b. cbn. by intros -> -> -> -> -> ->. Qed.

Lemma _files_filesChanged this :
  _files (_onProjectFilesChanged this) = _files this.
Proof. reflexivity. Qed.

(** X23. When the files of the project change, a [filename] that is set stays,
    also when it is the empty string or names no file; an unset one becomes
    the name of the first file, and stays unset when there is no file. Doing
    it again changes nothing. *)
Theorem filesChanged_picks_first_file (this : PlaygroundFileEditor) :
  (∀ fn, filename this = Some fn → _onProjectFilesChanged this = this) ∧
  (filename this = None →
     ∀ file rest, _files this = file :: rest →
       filename (_onProjectFilesChanged this) = Some (name file)) ∧
  (filename this = None → _files this = [] →
     _onProjectFilesChanged this = this) ∧
  _onProjectFilesChanged (_onProjectFilesChanged this) =
    _onProjectFilesChanged this.
Proof.
  split; [|split; [|split]].
  - intros fn Hfn. apply editor_eq; try reflexivity. cbn. by rewrite Hfn.
  - intros Hunset file rest Hfiles. cbn. by rewrite Hunset, Hfiles.
  - intros Hunset Hfiles. apply editor_eq; try reflexivity.
    cbn. by rewrite Hunset, Hfiles.
  - apply editor_eq; try reflexivity.
    cbn [filename _onProjectFilesChanged]. rewrite _files_filesChanged.
    destruct (filename this); [done|]. by destruct (_files this).
Qed.

Lemma filesChanged_picks_first_file_witness :
  let this :=
    {| _project :=
         Some {| files := Some [Toy.indexTs; Toy.styleCss];
                 diagnostics := None;
                 saveDebouncedCalls := 0 |};
       filename := None;
       lineNumbers := false;
       pragmas := on;
       readonly := false;
       _editor_value := "" |} in
  filename (_onProjectFilesChanged this) = Some "index.ts".
Proof.
  intros this.
  destruct (filesChanged_picks_first_file this) as (_ & Hfirst & _).
  apply (Hfirst eq_refl Toy.indexTs [Toy.styleCss]). reflexivity.
Defined.

(** X24. After the files of the project changed, an editor whose [filename] was
    unset shows the first file when that file's name is not empty: the value
    is its content, the type that of its content type, the diagnostics the
    project's for its name, and the editor is read-only only if [readonly]
    says so. *)
Theorem filesChanged_shows_first_file
    (this : PlaygroundFileEditor) (file : SampleFile) (rest : list SampleFile) :
  filename this = None →
  _files this = file :: rest →
  name file ≠ "" →
  let shown := render (_onProjectFilesChanged this) in
  _currentFileAt (_onProjectFilesChanged this) = Some (0%nat, file) ∧
  prop_value shown = content file ∧
  prop_type shown = mimeTypeToTypeEnum (contentType file) ∧
  prop_readonly shown = readonly this ∧
  prop_diagnostics shown = projectDiagnostics this (name file).
Proof.
  intros Hunset Hfiles Hname shown.
  assert (Hat : _currentFileAt (_onProjectFilesChanged this) = Some (0%nat, file)).
  { unfold _currentFileAt. rewrite _files_filesChanged.
    cbn [filename _onProjectFilesChanged]. rewrite Hunset, Hfiles.
    unfold truthy. destruct (String.eqb_spec (name file) ""); [done|].
    cbn. by rewrite decide_True. }
  split; [done|]. subst shown. unfold render, _currentFile. rewrite Hat.
  cbn [prop_value prop_type prop_readonly prop_diagnostics].
  split; [done|]. split; [done|]. split; [|done].
  cbn. by rewrite orb_false_r.
Qed.

Lemma filesChanged_shows_first_file_witness :
  let this :=
    {| _project :=
         Some {| files := Some [Toy.indexTs; Toy.styleCss];
                 diagnostics := None;
                 saveDebouncedCalls := 0 |};
       filename := None;
       lineNumbers := false;
       pragmas := on;
       readonly := false;
       _editor_value := "" |} in
  prop_value (render (_onProjectFilesChanged this)) = "import {html} from 'lit';" ∧
  prop_type (render (_onProjectFilesChanged this)) = Some ts.
Proof.
  intros this.
  destruct (filesChanged_shows_first_file this Toy.indexTs [Toy.styleCss])
    as (_ & Hvalue & Htype & _); [reflexivity|reflexivity|discriminate|].
  split; [exact Hvalue|exact Htype].
Defined.

(** X25. An editor with no project, or whose project has no files, shows the
    empty string, has no type, is read-only whatever [readonly] says, and
    an edit changes nothing; with no project it has no diagnostics either. *)
Theorem editor_without_files (this : PlaygroundFileEditor) :
  (_files this = [] →
     prop_value (render this) = "" ∧
     prop_type (render this) = None ∧
     prop_readonly (render this) = true ∧
     _onEdit this = this) ∧
  (_project this = None →
     _files this = [] ∧ prop_diagnostics (render this) = None).
Proof.
  split.
  - intros Hfiles.
    assert (Hat : _currentFileAt this = None).
    { unfold _currentFileAt. rewrite Hfiles.
      destruct (filename this) as [fn|]; [|done]. by destruct (truthy fn). }
    unfold render, _currentFile, _onEdit. rewrite Hat.
    cbn [prop_value prop_type prop_readonly].
    split; [done|]. split; [done|]. split; [|done]. by rewrite orb_true_r.
  - intros Hnone. unfold _files, render, projectDiagnostics.
    cbn [prop_diagnostics]. by rewrite Hnone.
Qed.

Lemma editor_without_files_witness :
  let this :=
    {| _project := None;
       filename := Some "index.ts";
       lineNumbers := true;
       pragmas := off;
       readonly := false;
       _editor_value := "typed" |} in
  prop_readonly (render this) = true ∧ _onEdit this = this ∧
  prop_diagnostics (render this) = None.
Proof.
  intros this.
  destruct (editor_without_files this) as [Hempty Hnone].
  destruct (Hnone eq_refl) as [Hfiles Hdiagnostics].
  destruct (Hempty Hfiles) as (_ & _ & Hreadonly & Hedit).
  split; [exact Hreadonly|]. split; [exact Hedit|exact Hdiagnostics].
Defined.

(** X26. After an edit the editor shows what was typed: the current file is the
    same file at the same place with the editor's value as content, the
    value bound is that value, and the names of the project's files, the
    type and the diagnostics are as before. *)
Theorem edit_is_read_back
    (this : PlaygroundFileEditor) (i : nat) (file : SampleFile) :
  _currentFileAt this = Some (i, file) →
  let edited := _onEdit this in
  _currentFileAt edited = Some (i, with_content (_editor_value this) file) ∧
  prop_value (render edited) = _editor_value this ∧
  prop_type (render edited) = prop_type (render this) ∧
  prop_diagnostics (render edited) = prop_diagnostics (render this) ∧
  name <$> _files edited = name <$> _files this.
Proof.
  intros Hat edited.
  destruct (_currentFileAt_Some this i file Hat) as (Hfn & Hne & Hlook & Hfirst).
  destruct (_files_of_project this file i Hlook) as (project & l & Hp & Hl & Hi).
  assert (Hfiles : _files this = l) by (unfold _files; by rewrite Hp, Hl).
  assert (Hedited : edited =
            {| _project :=
                 Some {| files := Some (alter (with_content (_editor_value this)) i l);
                         diagnostics := diagnostics project;
                         saveDebouncedCalls := S (saveDebouncedCalls project) |};
               filename := filename this;
               lineNumbers := lineNumbers this;
               pragmas := pragmas this;
               readonly := readonly this;
               _editor_value := _editor_value this |}).
  { subst edited. unfold _onEdit. by rewrite Hat, Hp, Hl. }
  assert (Hfiles' : _files edited = alter (with_content (_editor_value this)) i l)
    by (by rewrite Hedited).
  assert (Hat' : _currentFileAt edited
                 = Some (i, with_content (_editor_value this) file)).
  { unfold _currentFileAt. rewrite Hfiles'.
    replace (filename edited) with (Some (name file)) by (by rewrite Hedited).
    unfold truthy. destruct (String.eqb_spec (name file) ""); [done|]. cbn [negb].
    apply list_find_Some. split; [by rewrite list_lookup_alter_eq, Hi|].
    split; [done|]. intros j other Hother Hlt.
    rewrite list_lookup_alter_ne in Hother by lia.
    rewrite <- Hfiles in Hother. by apply (Hfirst j other). }
  split; [done|].
  assert (Hdiag : ∀ key, projectDiagnostics edited key = projectDiagnostics this key).
  { intros key. unfold projectDiagnostics. by rewrite Hedited, Hp. }
  unfold render, _currentFile. rewrite Hat', Hat.
  cbn [prop_value prop_type prop_diagnostics with_content content contentType name].
  split; [done|]. split; [done|]. split; [by rewrite Hdiag|].
  rewrite Hfiles', Hfiles. apply list_eq. intros j.
  rewrite !list_lookup_fmap.
  destruct (decide (i = j)) as [<-|Hj].
  - by rewrite list_lookup_alter_eq, Hi.
  - by rewrite list_lookup_alter_ne.
Qed.

Lemma edit_is_read_back_witness :
  let this :=
    {| _project :=
         Some {| files := Some [Toy.indexTs; Toy.styleCss];
                 diagnostics := Some ∅;
                 saveDebouncedCalls := 0 |};
       filename := Some "style.css";
       lineNumbers := false;
       pragmas := on;
       readonly := false;
       _editor_value := "p { color: blue }" |} in
  prop_value (render (_onEdit this)) = "p { color: blue }".
Proof.
  intros this.
  destruct (edit_is_read_back this 1%nat Toy.styleCss eq_refl) as (_ & Hvalue & _).
  exact Hvalue.
Defined.

End EditorExtras.
